(** * nuska: the dispatch core of [src/server.ts]

    A shallow embedding of the [Server] class: the response builder
    ([createResponse], [createErrorResponse]), the route table
    ([route], [findRoute], [pathMatches]), the middleware chain
    ([executeMiddlewareChain]), the top-level error sweep ([handleError])
    and the dispatcher ([processRequest]), with the life cycle of the
    server ([start], [stop], [setEngine]) and the [RouteGroup] class,
    followed by the properties stated about them.

    Conventions of the embedding.
    - A JavaScript method that may throw is a computation in the
      state-and-exception monad [M]: it takes the current state and returns
      an [outcome] together with the state it leaves behind.  A [throw]
      keeps every assignment made before it, as in JavaScript.
    - The closure variables of [createResponse] ([status], [headers],
      [body], [sent], [finished]) are the fields of [ResponseState]; the
      getters of the returned object are the functions [status],
      [headers], [body], [sent], [finished].
    - Middleware hooks and route handlers are callbacks supplied by the
      user of the server.  A callback is a finite tree of the actions it can
      perform on the response object and on its continuation ([prog]).
      In [IMiddleware] every call a hook makes of its continuation is
      awaited; the module [Detached] has the hooks that may also call
      [next] without awaiting it, and [processRequest_awaiting] shows that
      the first are the second with every call awaited.
    - The closure [next] of the chain calls hooks that call [next] again;
      it is defined by recursion on a bound on this nesting ([fuel]), and
      the bound the chain starts with is shown to be enough
      ([executeMiddlewareChain_terminates], [executeMiddlewareChain_fuel]).
    - The dispatcher's computations carry a record of the callbacks they
      invoke ([event]); it is not a variable of the source and nothing
      reads it.
    - [Record<string, string>] is a [gmap string string]; numbers are [Z]. *)

From Stdlib Require Import ZArith Ascii String.
From stdpp Require Import base option list strings gmap.

Open Scope Z_scope.
Open Scope string_scope.
Open Scope list_scope.

(** ** JavaScript values that flow through the dispatcher *)

(** Bodies and thrown values are [unknown] in the source. *)
#[local] Set Warnings "-register-all".
Inductive jsval : Type :=
| VUndefined
| VNull
| VBool (b : bool)
| VNum (n : Z)
| VStr (s : string)
| VArr (items : list jsval)
| VObj (fields : list (string * jsval))
| VError (message : string).

(** [new Error(message)] *)
Definition Error (message : string) : jsval := VError message.

(** ** Outcomes and the monad of throwing, state-changing code *)

Inductive outcome (A : Type) : Type :=
| Ok (a : A)            (* the call returns / the promise resolves *)
| Throw (e : jsval)     (* the call throws / the promise rejects *)
| OutOfFuel.            (* the bound on nested continuation calls ran out *)
Arguments Ok {A} a.
Arguments Throw {A} e.
Arguments OutOfFuel {A}.

Definition M (S A : Type) : Type := S -> outcome A * S.

Definition ret {S A} (a : A) : M S A := fun s => (Ok a, s).
Definition throw {S A} (e : jsval) : M S A := fun s => (Throw e, s).
Definition bind {S A B} (m : M S A) (k : A -> M S B) : M S B :=
  fun s =>
    match m s with
    | (Ok a, s') => k a s'
    | (Throw e, s') => (Throw e, s')
    | (OutOfFuel, s') => (OutOfFuel, s')
    end.
Definition get {S} : M S S := fun s => (Ok s, s).
Definition put {S} (s : S) : M S unit := fun _ => (Ok tt, s).
Definition modify {S} (f : S -> S) : M S unit := fun s => (Ok tt, f s).

(** [try { m } catch (e) { h e }] *)
Definition try_catch {S A} (m : M S A) (h : jsval -> M S A) : M S A :=
  fun s =>
    match m s with
    | (Ok a, s') => (Ok a, s')
    | (Throw e, s') => h e s'
    | (OutOfFuel, s') => (OutOfFuel, s')
    end.

Declare Scope js_scope.
Delimit Scope js_scope with js.
Notation "'let!' x ':=' m 'in' k" := (bind m (fun x => k))
  (at level 10, x name, m at level 100, k at level 200) : js_scope.
Notation "m ';;' k" := (bind m (fun _ => k))
  (at level 100, k at level 200, right associativity) : js_scope.
Open Scope js_scope.

(** ** Interfaces *)

(** [HttpMethod] *)
Inductive HttpMethod : Set :=
| GET | POST | PUT | PATCH | DELETE | HEAD | OPTIONS | TRACE | CONNECT.

Global Instance HttpMethod_eq_dec : EqDecision HttpMethod.
Proof. solve_decision. Defined.

(** [IRequest]; its fields carry the prefix [req_], and the [url] object is
    kept as its string. *)
Record IRequest : Type := {
  req_method : HttpMethod;
  req_url : string;
  req_path : string;
  req_headers : gmap string string;
  req_query : gmap string string;
  req_params : gmap string string;
  req_body : jsval;
  req_protocol : string;
  req_remoteAddress : option string;
  req_userAgent : option string
}.

(** ** The response builder: [Server.createResponse] *)

(** The variables captured by the closures of one response object. *)
Record ResponseState : Type := {
  r_status : option Z;               (* let status: number | undefined *)
  r_headers : gmap string string;    (* let headers = {} *)
  r_body : jsval;                    (* let body: unknown *)
  r_sent : bool;                     (* let sent = false *)
  r_finished : bool                  (* let finished = false *)
}.

Definition createResponse : ResponseState :=
  {| r_status := None; r_headers := ∅; r_body := VUndefined;
     r_sent := false; r_finished := false |}.

(** Getters. *)
Definition status (r : ResponseState) : Z := default 200 (r_status r).
Definition headers (r : ResponseState) : gmap string string := r_headers r.
Definition body (r : ResponseState) : jsval := r_body r.
Definition sent (r : ResponseState) : bool := r_sent r.
Definition finished (r : ResponseState) : bool := r_finished r.

(** What a caller holding the response object can read of it. *)
Record IResponse : Type := {
  v_status : Z;
  v_headers : gmap string string;
  v_body : jsval;
  v_sent : bool;
  v_finished : bool
}.

Definition view (r : ResponseState) : IResponse :=
  {| v_status := status r; v_headers := headers r; v_body := body r;
     v_sent := sent r; v_finished := finished r |}.

Definition set_r_status (c : option Z) (r : ResponseState) : ResponseState :=
  {| r_status := c; r_headers := r_headers r; r_body := r_body r;
     r_sent := r_sent r; r_finished := r_finished r |}.
Definition set_r_headers (h : gmap string string) (r : ResponseState) : ResponseState :=
  {| r_status := r_status r; r_headers := h; r_body := r_body r;
     r_sent := r_sent r; r_finished := r_finished r |}.
Definition set_r_body (b : jsval) (r : ResponseState) : ResponseState :=
  {| r_status := r_status r; r_headers := r_headers r; r_body := b;
     r_sent := r_sent r; r_finished := r_finished r |}.
Definition set_r_sent (b : bool) (r : ResponseState) : ResponseState :=
  {| r_status := r_status r; r_headers := r_headers r; r_body := r_body r;
     r_sent := b; r_finished := r_finished r |}.
Definition set_r_finished (b : bool) (r : ResponseState) : ResponseState :=
  {| r_status := r_status r; r_headers := r_headers r; r_body := r_body r;
     r_sent := r_sent r; r_finished := b |}.

(** Methods.  The source returns [this] from [setStatus] and [setHeader];
    the object is the state being threaded here. *)
Definition setStatus (code : Z) : M ResponseState unit :=
  let! r := get in
  if r_sent r then throw (Error "Cannot set status after response has been sent")
  else modify (set_r_status (Some code)).

(** [headers] is a plain object, so the assignment [headers[name] = value]
    with the name [__proto__] reaches the setter inherited from
    [Object.prototype], which ignores a string: nothing is stored. *)
Definition setHeader (name value : string) : M ResponseState unit :=
  let! r := get in
  if r_sent r then throw (Error "Cannot set headers after response has been sent")
  else if bool_decide (name = "__proto__") then ret tt
  else modify (fun r => set_r_headers (<[name := value]> (r_headers r)) r).

Definition send (data : jsval) : M ResponseState unit :=
  let! r := get in
  if r_sent r then throw (Error "Response has already been sent")
  else
    (let! r := get in
     if r_status r is None then modify (set_r_status (Some 200)) else ret tt);;
    modify (set_r_body data);;
    modify (set_r_sent true);;
    modify (set_r_finished true).

Definition json (data : jsval) : M ResponseState unit :=
  setHeader "content-type" "application/json";;
  send data.

(** [Server.createErrorResponse] *)
Definition createErrorResponse (code : Z) (message : string)
  : outcome ResponseState :=
  match (setStatus code;; json (VObj [("error", VStr message)])) createResponse with
  | (Ok _, response) => Ok response
  | (Throw e, _) => Throw e
  | (OutOfFuel, _) => OutOfFuel
  end.

(** The four mutating calls of [IResponse], as data. *)
Inductive call : Type :=
| CallSetStatus (code : Z)
| CallSetHeader (name value : string)
| CallSend (data : jsval)
| CallJson (data : jsval).

Definition do_call (c : call) : M ResponseState unit :=
  match c with
  | CallSetStatus code => setStatus code
  | CallSetHeader name value => setHeader name value
  | CallSend data => send data
  | CallJson data => json data
  end.

(** A caller that makes the calls one after the other and carries on after
    a call that throws (each call in its own [try]). *)
Fixpoint do_calls (cs : list call) (r : ResponseState) : ResponseState :=
  match cs with
  | [] => r
  | c :: cs' => do_calls cs' (snd (do_call c r))
  end.

Definition is_setStatus (c : call) : bool :=
  match c with CallSetStatus _ => true | _ => false end.

(** ** Callbacks: middleware hooks and route handlers

    What a callback does with the response object and the continuation it
    was handed.  [K] is the type of the calls it can make of a
    continuation: [unit] for a hook that awaits [next], [Empty_set] for a
    route handler (it receives no continuation), [Detached.how] for a hook
    that may call [next] without awaiting it. *)
Inductive prog (K : Type) : Type :=
| Return                                            (* return *)
| Raise (e : jsval)                                 (* throw e *)
| Read (k : IResponse -> prog K)                    (* read the getters, go on *)
| SetStatus (code : Z) (k : prog K)                 (* response.setStatus(code); k *)
| SetHeader (name value : string) (k : prog K)      (* response.setHeader(name, value); k *)
| Send (data : jsval) (k : prog K)                  (* response.send(data); k *)
| Json (data : jsval) (k : prog K)                  (* response.json(data); k *)
| Await (c : K) (k : prog K)                        (* await next(); k  (the call [c]) *)
| TryCatch (p : prog K) (h : jsval -> prog K) (k : prog K).
                                                    (* try { p } catch (e) { h e }; k *)
Arguments Return {K}.
Arguments Raise {K} e.
Arguments Read {K} k.
Arguments SetStatus {K} code k.
Arguments SetHeader {K} name value k.
Arguments Send {K} data k.
Arguments Json {K} data k.
Arguments Await {K} c k.
Arguments TryCatch {K} p h k.

Section Exec.
(** [X] is whatever else the continuation may change besides the
    response (the cursor of the chain, for instance). *)
Context {X K : Type}.
Variable next : K -> M (X * ResponseState) unit.

Definition on_response {A} (m : M ResponseState A) : M (X * ResponseState) A :=
  fun s => let (o, r') := m (snd s) in (o, (fst s, r')).

Fixpoint exec (p : prog K) : M (X * ResponseState) unit :=
  match p with
  | Return => ret tt
  | Raise e => throw e
  | Read k => fun s => exec (k (view (snd s))) s
  | SetStatus code k => on_response (setStatus code);; exec k
  | SetHeader name value k => on_response (setHeader name value);; exec k
  | Send data k => on_response (send data);; exec k
  | Json data k => on_response (json data);; exec k
  | Await c k => next c;; exec k
  | TryCatch p h k => try_catch (exec p) (fun e => exec (h e));; exec k
  end.
End Exec.

(** [IMiddleware]: three optional hooks. *)
Record IMiddleware : Type := {
  before : option (IRequest -> prog unit);
  after : option (IRequest -> prog unit);
  onError : option (jsval -> IRequest -> prog unit)
}.

(** [IRoute] *)
Record IRoute : Type := {
  method : HttpMethod;
  path : string;
  handler : IRequest -> prog Empty_set;
  middlewares : option (list IMiddleware);
  description : option string;
  tags : option (list string)
}.

Definition set_path (p : string) (r : IRoute) : IRoute :=
  {| method := method r; path := p; handler := handler r;
     middlewares := middlewares r; description := description r;
     tags := tags r |}.

(** [IRouteGroup]; [getPrefixedRoutes] is the result of the method. *)
Record IRouteGroup : Type := {
  prefix : string;
  routes : list IRoute;
  group_middlewares : list IMiddleware;
  getPrefixedRoutes : list IRoute
}.

(** [IEngine]: what its asynchronous calls settle to. *)
Record IEngine : Type := {
  listen : Z -> outcome unit;
  close : outcome unit;
  engine_protocol : string;
  isSecure : bool
}.

(** ** The server object *)

Record Server : Type := {
  _engine : IEngine;
  _globalMiddlewares : list IMiddleware;
  _routes : list IRoute;
  _isRunning : bool
}.

(** [new Server(engine)] *)
Definition newServer (engine : IEngine) : Server :=
  {| _engine := engine; _globalMiddlewares := []; _routes := [];
     _isRunning := false |}.

Definition isRunning (s : Server) : bool := _isRunning s.

Definition set_globalMiddlewares (ms : list IMiddleware) (s : Server) : Server :=
  {| _engine := _engine s; _globalMiddlewares := ms; _routes := _routes s;
     _isRunning := _isRunning s |}.
Definition set_routes (rs : list IRoute) (s : Server) : Server :=
  {| _engine := _engine s; _globalMiddlewares := _globalMiddlewares s;
     _routes := rs; _isRunning := _isRunning s |}.
Definition set_isRunning (b : bool) (s : Server) : Server :=
  {| _engine := _engine s; _globalMiddlewares := _globalMiddlewares s;
     _routes := _routes s; _isRunning := b |}.
Definition set_engine (e : IEngine) (s : Server) : Server :=
  {| _engine := e; _globalMiddlewares := _globalMiddlewares s;
     _routes := _routes s; _isRunning := _isRunning s |}.

(** [Server.use] *)
Definition use (middleware : IMiddleware) : M Server unit :=
  modify (fun s => set_globalMiddlewares (_globalMiddlewares s ++ [middleware]) s).

(** The three shapes [Server.route] accepts. *)
Inductive RouteInput : Type :=
| OneRoute (r : IRoute)
| RouteArray (rs : list IRoute)
| GroupOfRoutes (g : IRouteGroup).

Definition normalizePath (r : IRoute) : IRoute :=
  if bool_decide (path r = "") then set_path "/" r else r.

(** [Server.route].  The source writes ['/'] into the [path] of the
    object it was given and pushes that object; the table here receives
    the route as it is after the write.  The two differ only when the
    object written to is already in the table, which takes a route of the
    table with an empty path: the statements about the table after
    [route] are made for tables that have none. *)
Definition route (routeInput : RouteInput) : M Server unit :=
  let! s := get in
  if _isRunning s then throw (Error "Cannot add routes after server has started")
  else
    match routeInput with
    | GroupOfRoutes g =>
        modify (fun s => set_routes (_routes s ++ getPrefixedRoutes g) s)
    | RouteArray rs =>
        modify (fun s => set_routes (_routes s ++ map normalizePath rs) s)
    | OneRoute r =>
        modify (fun s => set_routes (_routes s ++ [normalizePath r]) s)
    end.

(** [Server.setEngine] *)
Definition setEngine (engine : IEngine) : M Server unit :=
  let! s := get in
  if _isRunning s then throw (Error "Cannot change engine while server is running")
  else modify (set_engine engine).

(** [Server.start] *)
Definition start (port : Z) : M Server unit :=
  let! s := get in
  if _isRunning s then throw (Error "Server is already running")
  else
    modify (set_isRunning true);;
    try_catch
      (fun s => (listen (_engine s) port, s))
      (fun error => modify (set_isRunning false);; throw error).

(** [Server.stop] *)
Definition stop : M Server unit :=
  let! s := get in
  if negb (_isRunning s) then ret tt
  else
    try_catch
      ((fun s => (close (_engine s), s));; modify (set_isRunning false))
      (fun error => throw error).

(** ** The route table: [Server.findRoute], [Server.pathMatches] *)

Definition pathMatches (routePath requestPath : string) : bool :=
  bool_decide (routePath = requestPath).

Definition findRoute (s : Server) (m : HttpMethod) (p : string) : option IRoute :=
  List.find (fun route => bool_decide (method route = m) && pathMatches (path route) p)
            (_routes s).

(** ** The middleware chain: [Server.executeMiddlewareChain] *)

(** The record of which callbacks the dispatcher has invoked, in order.
    It is not a variable of the source: it is kept beside the state so that
    statements about the order of invocations can be written.  [i] is the
    position of the middleware in the list being walked. *)
Inductive event : Type :=
| InvokeBefore (i : nat)
| InvokeOnError (i : nat)
| InvokeHandler.

Global Instance event_eq_dec : EqDecision event.
Proof. solve_decision. Defined.

(** The variables of one run of the chain besides the response: the
    cursor [index] shared by every call of [next], and the record of
    invocations. *)
Record ChainEnv : Type := {
  index : nat;
  trace : list event
}.

Definition log_chain (ev : event) : M (ChainEnv * ResponseState) unit :=
  modify (fun s => ({| index := index (fst s); trace := trace (fst s) ++ [ev] |}, snd s)).

Definition incr_index : M (ChainEnv * ResponseState) unit :=
  modify (fun s => ({| index := S (index (fst s)); trace := trace (fst s) |}, snd s)).

(** A handler has no continuation to call. *)
Definition no_next {S} (c : Empty_set) : M S unit := match c with end.

Section Chain.
Variable allMiddlewares : list IMiddleware.
Variable the_route : IRoute.
Variable request : IRequest.

(** The closure [next].  Each call nested inside a hook that [next] itself
    started uses one unit of [fuel]. *)
Fixpoint next (fuel : nat) (_ : unit) : M (ChainEnv * ResponseState) unit :=
  match fuel with
  | O => fun s => (OutOfFuel, s)
  | S fuel' =>
      let! s := get in
      let i := index (fst s) in
      if bool_decide (length allMiddlewares ≤ i)%nat then
        log_chain InvokeHandler;;
        exec no_next (handler the_route request)
      else
        incr_index;;                      (* allMiddlewares[index++] *)
        match allMiddlewares !! i with
        | None => throw (Error "TypeError") (* not reached: i < length *)
        | Some middleware =>
            try_catch
              (match before middleware with
               | Some hook =>
                   log_chain (InvokeBefore i);;
                   exec (next fuel') (hook request)
               | None => next fuel' tt
               end)
              (fun error =>
                 match onError middleware with
                 | Some hook =>
                     log_chain (InvokeOnError i);;
                     exec (next fuel') (hook error request)
                 | None => throw error
                 end)
        end
  end.
End Chain.

(** The dispatcher's own computations run over the record of invocations. *)
Definition executeMiddlewareChain (s : Server) (r : IRoute) (request : IRequest)
  : M (list event) ResponseState :=
  fun tr =>
    let allMiddlewares := _globalMiddlewares s ++ default [] (middlewares r) in
    let response := createResponse in
    match next allMiddlewares r request (S (length allMiddlewares)) tt
               ({| index := 0; trace := tr |}, response) with
    | (Ok _, (env, response)) => (Ok response, trace env)
    | (Throw e, (env, _)) => (Throw e, trace env)
    | (OutOfFuel, (env, _)) => (OutOfFuel, trace env)
    end.

(** ** The top-level error path: [Server.handleError] *)

(** [() => Promise.resolve()] *)
Definition noop {S} (_ : unit) : M S unit := ret tt.

(** The [for ... of] loop over the global middleware; [i] is the position
    of the head of [ms] in the whole list. *)
Fixpoint handleError_from (i : nat) (ms : list IMiddleware)
    (error : jsval) (request : IRequest) : M (list event) ResponseState :=
  match ms with
  | [] =>
      fun tr => (createErrorResponse 500 "Internal Server Error", tr)
  | middleware :: ms' =>
      match onError middleware with
      | Some hook =>
          fun tr =>
            let response := createResponse in
            match exec noop (hook error request) (tr ++ [InvokeOnError i], response) with
            | (Ok _, (tr', response)) => (Ok response, tr')
            | (Throw _, (tr', _)) => handleError_from (S i) ms' error request tr'
            | (OutOfFuel, (tr', _)) => (OutOfFuel, tr')
            end
      | None => handleError_from (S i) ms' error request
      end
  end.

Definition handleError (s : Server) (error : jsval) (request : IRequest)
  : M (list event) ResponseState :=
  handleError_from 0 (_globalMiddlewares s) error request.

(** ** The dispatcher: [Server.processRequest] *)

Definition processRequest (s : Server) (request : IRequest)
  : M (list event) ResponseState :=
  try_catch
    (match findRoute s (req_method request) (req_path request) with
     | None => fun tr => (createErrorResponse 404 "Not Found", tr)
     | Some r => executeMiddlewareChain s r request
     end)
    (fun error => handleError s error request).

(** One dispatch, from an empty record of invocations. *)
Definition dispatch (s : Server) (request : IRequest)
  : outcome ResponseState * list event :=
  processRequest s request [].

(** ** Auxiliary notions used in the statements *)

(** The error each call is rejected with on a sent response. *)
Definition rejection (c : call) : jsval :=
  match c with
  | CallSetStatus _ => Error "Cannot set status after response has been sent"
  | CallSetHeader _ _ | CallJson _ => Error "Cannot set headers after response has been sent"
  | CallSend _ => Error "Response has already been sent"
  end.

(** The stored status while [setStatus] has not been called: unset or 200. *)
Definition status_untouched (r : ResponseState) : Prop :=
  r_status r = None ∨ r_status r = Some 200.

(** A route answers a request for [m] and [p]. *)
Definition matches (m : HttpMethod) (p : string) (r : IRoute) : Prop :=
  method r = m ∧ path r = p.

(** A computation over an environment and a response respects [R] from
    [P]: started in an environment satisfying [P], it does not run out of
    fuel and leaves an environment related by [R] to the one it found. *)
Definition respects {X A : Type} (R : X → X → Prop) (P : X → Prop)
    (m : M (X * ResponseState) A) : Prop :=
  ∀ x r, P x → (m (x, r)).1 ≠ OutOfFuel ∧ R x (m (x, r)).2.1.

(** How one run of [next] (or of a hook, or of the handler) may change the
    environment of a chain over [n] middleware: the cursor moves forward
    and not beyond [n], the record of invocations is extended, and the
    [before] hooks invoked are at positions from [lo] on. *)
Definition chain_step (n lo : nat) (x x' : ChainEnv) : Prop :=
  (index x ≤ index x')%nat ∧
  (index x ≤ n → index x' ≤ n)%nat ∧
  ∃ suffix, trace x' = trace x ++ suffix ∧
            ∀ j, InvokeBefore j ∈ suffix → (lo ≤ j < n)%nat.

(** The cursor is between [lo] and [n], and [fuel] exceeds the number of
    middleware not yet passed. *)
Definition chain_ready (n lo fuel : nat) (x : ChainEnv) : Prop :=
  (lo ≤ index x ≤ n)%nat ∧ (n < fuel + index x)%nat.

(** A callback body that never calls a continuation. *)
Inductive next_free {K : Type} : prog K → Prop :=
| nf_return : next_free Return
| nf_raise e : next_free (Raise e)
| nf_read k : (∀ v, next_free (k v)) → next_free (Read k)
| nf_setStatus code k : next_free k → next_free (SetStatus code k)
| nf_setHeader name value k : next_free k → next_free (SetHeader name value k)
| nf_send data k : next_free k → next_free (Send data k)
| nf_json data k : next_free k → next_free (Json data k)
| nf_tryCatch p h k :
    next_free p → (∀ e, next_free (h e)) → next_free k →
    next_free (TryCatch p h k).

(** What is done with the result of an awaited call: go on as [k] when it
    returned, as [h e] when it threw [e]. *)
Definition settle {S : Type} (res : outcome unit * S)
    (k : M S unit) (h : jsval → M S unit) : outcome unit * S :=
  match res with
  | (Ok _, s) => k s
  | (Throw e, s) => h e s
  | (OutOfFuel, s) => (OutOfFuel, s)
  end.

(** The hook body [p], started on the response [r], brings the response to
    [r1] without calling [next] and then awaits [next()]; it goes on as [k]
    when the call returns and as [h e] when the call throws [e].  This is
    said of the hook whatever its continuation does. *)
Definition calls_next_at (p : prog unit) (r r1 : ResponseState)
    (k : prog unit) (h : jsval → prog unit) : Prop :=
  ∀ (X : Type) (nxt : unit → M (X * ResponseState) unit) (x : X),
    exec nxt p (x, r) = settle (nxt tt (x, r1)) (exec nxt k) (λ e, exec nxt (h e)).

(** The hook body [p], started on the response [r], throws [e] without
    having called [next], leaving the response as [r']. *)
Definition throws_at (p : prog unit) (r r' : ResponseState) (e : jsval) : Prop :=
  ∀ (X : Type) (nxt : unit → M (X * ResponseState) unit) (x : X),
    exec nxt p (x, r) = (Throw e, (x, r')).




(** The [before] hook of the middleware, started on any response not yet
    sent, awaits [next()] with the response still not sent, and does not
    catch the error [e] when the call throws it. *)
Definition before_passes_on (m : IMiddleware) (request : IRequest) (e : jsval) : Prop :=
  ∃ b, before m = Some b ∧
       ∀ r, sent r = false →
            ∃ r1 k h, calls_next_at (b request) r r1 k h ∧
                      sent r1 = false ∧ h e = Raise e.




(** ** Sample servers, used to instantiate the statements *)

Definition sample_engine : IEngine :=
  {| listen := λ _, Ok tt; close := Ok tt;
     engine_protocol := "HTTP/1.1"; isSecure := false |}.

Definition sample_request (m : HttpMethod) (p : string) : IRequest :=
  {| req_method := m; req_url := p; req_path := p; req_headers := ∅;
     req_query := ∅; req_params := ∅; req_body := VUndefined;
     req_protocol := "HTTP/1.1"; req_remoteAddress := None;
     req_userAgent := None |}.

(** [{ before: async (req, res, next) => { await next(); } }] *)
Definition pass_through : IMiddleware :=
  {| before := Some (λ _, Await tt Return); after := None; onError := None |}.

(** [{ before: async () => { throw new Error("boom"); } }] *)
Definition failing : IMiddleware :=
  {| before := Some (λ _, Raise (Error "boom")); after := None; onError := None |}.

(** The same with an [onError] hook that answers 503. *)
Definition failing_recovering : IMiddleware :=
  {| before := Some (λ _, Raise (Error "boom"));
     after := None;
     onError := Some (λ _ _,
       SetStatus 503 (Json (VObj [("error", VStr "Service Unavailable")]) Return)) |}.

(** [{ before: async (req, res, next) => { await next(); },
       onError: async (err, req, res, next) => { await next(); } }] *)
Definition resuming : IMiddleware :=
  {| before := Some (λ _, Await tt Return);
     after := None;
     onError := Some (λ _ _, Await tt Return) |}.




(** [{ onError: async (err) => { throw err; } }] *)
Definition rethrowing : IMiddleware :=
  {| before := None; after := None; onError := Some (λ e _, Raise e) |}.

(** [{ method: "GET", path: "/", handler: (req, res) => res.send("Root"),
       middlewares: [pass_through] }] *)
Definition root_route : IRoute :=
  {| method := GET; path := "/";
     handler := λ _, Send (VStr "Root") Return;
     middlewares := Some [pass_through];
     description := None; tags := None |}.

(** A started server with one route and the given global middleware. *)
Definition sample_server (globals : list IMiddleware) : Server :=
  {| _engine := sample_engine; _globalMiddlewares := globals;
     _routes := [root_route]; _isRunning := true |}.

(** What [handleError] does with one [onError] hook: run it on a fresh
    response with the no-op continuation. *)
Definition sweep_attempt (hook : jsval → IRequest → prog unit)
    (error : jsval) (request : IRequest) : outcome unit * ResponseState :=
  let result := exec noop (hook error request) (tt, createResponse) in
  (result.1, result.2.2).

(** The middleware does not settle the error: it has no [onError], or its
    [onError] throws. *)
Definition declines (error : jsval) (request : IRequest) (m : IMiddleware) : Prop :=
  match onError m with
  | None => True
  | Some hook => ∃ e r, sweep_attempt hook error request = (Throw e, r)
  end.

(** The positions, counted from [i], of the middleware that have [onError]. *)
Fixpoint onError_positions (i : nat) (ms : list IMiddleware) : list nat :=
  match ms with
  | [] => []
  | m :: ms' =>
      if onError m is Some _ then i :: onError_positions (S i) ms'
      else onError_positions (S i) ms'
  end.

(** The server with every [after] hook removed. *)
Definition erase_after (m : IMiddleware) : IMiddleware :=
  {| before := before m; after := None; onError := onError m |}.

Definition erase_after_route (r : IRoute) : IRoute :=
  {| method := method r; path := path r; handler := handler r;
     middlewares := fmap (M := list) erase_after <$> middlewares r;
     description := description r; tags := tags r |}.

Definition erase_after_server (s : Server) : Server :=
  {| _engine := _engine s;
     _globalMiddlewares := erase_after <$> _globalMiddlewares s;
     _routes := erase_after_route <$> _routes s;
     _isRunning := _isRunning s |}.

(** The middleware with an [after] hook that would answer 418 and throw. *)
Definition with_after (m : IMiddleware) : IMiddleware :=
  {| before := before m;
     after := Some (λ _, SetStatus 418 (Send (VStr "after") (Raise (Error "after"))));
     onError := onError m |}.

(** The catch clause of [next] for the middleware at position [i]. *)
Definition catch_clause (allMiddlewares : list IMiddleware) (the_route : IRoute)
    (request : IRequest) (fuel : nat) (middleware : IMiddleware) (i : nat)
    (error : jsval) : M (ChainEnv * ResponseState) unit :=
  match onError middleware with
  | Some hook =>
      log_chain (InvokeOnError i);;
      exec (next allMiddlewares the_route request fuel) (hook error request)
  | None => throw error
  end.


(** ** The [RouteGroup] class *)

(** The string a method is in the source. *)
Definition method_name (m : HttpMethod) : string :=
  match m with
  | GET => "GET" | POST => "POST" | PUT => "PUT" | PATCH => "PATCH"
  | DELETE => "DELETE" | HEAD => "HEAD" | OPTIONS => "OPTIONS"
  | TRACE => "TRACE" | CONNECT => "CONNECT"
  end.

(** [s.startsWith('/')] *)
Definition startsWith_slash (s : string) : bool :=
  match s with
  | String c _ => bool_decide (c = "/"%char)
  | EmptyString => false
  end.

(** [s.endsWith('/')] *)
Fixpoint endsWith_slash (s : string) : bool :=
  match s with
  | EmptyString => false
  | String c EmptyString => bool_decide (c = "/"%char)
  | String _ s' => endsWith_slash s'
  end.

(** [s.slice(0, -1)] *)
Fixpoint slice_0_minus1 (s : string) : string :=
  match s with
  | EmptyString => EmptyString
  | String _ EmptyString => EmptyString
  | String c s' => String c (slice_0_minus1 s')
  end.

Record RouteGroup : Type := {
  rg_prefix : string;
  rg_routes : list IRoute;
  rg_middlewares : list IMiddleware;
  rg_description : option string;
  rg_tags : option (list string)
}.

(** [RouteGroup.normalizePrefix] *)
Definition RouteGroup_normalizePrefix (prefix : string) : string :=
  let prefix :=
    if negb (startsWith_slash prefix) then String.append "/" prefix else prefix in
  if bool_decide (1 < String.length prefix)%nat && endsWith_slash prefix
  then slice_0_minus1 prefix
  else prefix.

(** [`${route.method}:${this.prefix}${route.path}`] *)
Definition routeKey (prefix : string) (r : IRoute) : string :=
  String.append (method_name (method r))
    (String.append ":" (String.append prefix (path r))).

(** What two routes must not share inside a group. *)
Definition method_and_path (r : IRoute) : HttpMethod * string := (method r, path r).

(** [RouteGroup.validateRoutes]: the loop, from the set of keys seen. *)
Fixpoint validateRoutes_from (prefix : string) (routeKeys : gset string)
    (rs : list IRoute) : outcome unit :=
  match rs with
  | [] => Ok tt
  | r :: rs' =>
      let key := routeKey prefix r in
      if bool_decide (key ∈ routeKeys) then
        Throw (Error (String.append "Duplicate route detected: " key))
      else validateRoutes_from prefix ({[key]} ∪ routeKeys) rs'
  end.

Definition RouteGroup_validateRoutes (g : RouteGroup) : outcome unit :=
  validateRoutes_from (rg_prefix g) ∅ (rg_routes g).

(** [new RouteGroup(prefix, routes, middlewares, description, tags)];
    [middlewares] is [None] when the argument is left out. *)
Definition RouteGroup_new (prefix : string) (rs : list IRoute)
    (ms : option (list IMiddleware)) (d : option string)
    (ts : option (list string)) : outcome RouteGroup :=
  let this :=
    {| rg_prefix := RouteGroup_normalizePrefix prefix;
       rg_routes := rs;
       rg_middlewares := default [] ms;
       rg_description := d;
       rg_tags := ts |} in
  match RouteGroup_validateRoutes this with
  | Ok _ => Ok this
  | Throw e => Throw e
  | OutOfFuel => OutOfFuel
  end.

(** [RouteGroup.addRoute] *)
Definition RouteGroup_addRoute (r : IRoute) (g : RouteGroup) : outcome RouteGroup :=
  let key := routeKey (rg_prefix g) r in
  match List.find (fun r' => bool_decide (routeKey (rg_prefix g) r' = key))
                  (rg_routes g) with
  | Some _ => Throw (Error (String.append "Route already exists: " key))
  | None =>
      RouteGroup_new (rg_prefix g) (rg_routes g ++ [r]) (Some (rg_middlewares g))
        (rg_description g) (rg_tags g)
  end.

(** [RouteGroup.use] *)
Definition RouteGroup_use (m : IMiddleware) (g : RouteGroup) : outcome RouteGroup :=
  RouteGroup_new (rg_prefix g) (rg_routes g) (Some (rg_middlewares g ++ [m]))
    (rg_description g) (rg_tags g).

(** [RouteGroup.getPrefixedRoutes]; [prefixed] is the function mapped
    over the routes. *)
Definition prefixed (g : RouteGroup) (r : IRoute) : IRoute :=
  {| method := method r;
     path := String.append (rg_prefix g) (path r);
     handler := handler r;
     middlewares := Some (rg_middlewares g ++ default [] (middlewares r));
     description := description r;
     tags := tags r |}.

Definition RouteGroup_getPrefixedRoutes (g : RouteGroup) : list IRoute :=
  map (prefixed g) (rg_routes g).

(** [RouteGroup.findRoute] *)
Definition RouteGroup_findRoute (g : RouteGroup) (m : HttpMethod) (p : string)
  : option IRoute :=
  List.find (fun r => bool_decide (method r = m) && bool_decide (path r = p))
            (rg_routes g).

(** [RouteGroup.routeCount] *)
Definition RouteGroup_routeCount (g : RouteGroup) : nat := length (rg_routes g).

(** [RouteGroup.hasTag] *)
Definition RouteGroup_hasTag (g : RouteGroup) (tag : string) : bool :=
  match rg_tags g with
  | Some ts => bool_decide (tag ∈ ts)
  | None => false
  end.

(** The class seen through the interface it implements. *)
Definition as_IRouteGroup (g : RouteGroup) : IRouteGroup :=
  {| prefix := rg_prefix g; routes := rg_routes g;
     group_middlewares := rg_middlewares g;
     getPrefixedRoutes := RouteGroup_getPrefixedRoutes g |}.

(** ** Sequences of calls on a server *)

(** The public methods of [Server], as data. *)
Inductive server_call : Type :=
| CallUse (middleware : IMiddleware)
| CallRoute (routeInput : RouteInput)
| CallSetEngine (engine : IEngine)
| CallStart (port : Z)
| CallStop.

Definition do_server_call (c : server_call) : M Server unit :=
  match c with
  | CallUse middleware => use middleware
  | CallRoute routeInput => route routeInput
  | CallSetEngine engine => setEngine engine
  | CallStart port => start port
  | CallStop => stop
  end.

(** A caller that makes the calls in turn, carrying on after one that
    throws. *)
Fixpoint do_server_calls (cs : list server_call) (s : Server) : Server :=
  match cs with
  | [] => s
  | c :: cs' => do_server_calls cs' (snd (do_server_call c s))
  end.

(** The group was built by the constructor of the class. *)
Definition constructed (g : RouteGroup) : Prop :=
  ∃ prefix rs ms d ts, RouteGroup_new prefix rs ms d ts = Ok g.

(** A route input whose group, if it is one, is an instance of the
    [RouteGroup] class. *)
Definition class_input (i : RouteInput) : Prop :=
  match i with
  | GroupOfRoutes g => ∃ g0, g = as_IRouteGroup g0 ∧ constructed g0
  | _ => True
  end.

Definition class_call (c : server_call) : Prop :=
  match c with
  | CallRoute i => class_input i
  | _ => True
  end.

(** ** Notions for the order of invocations in the chain *)

(** The positions of the [before] hooks invoked, in order. *)
Definition befores (tr : list event) : list nat :=
  omap (fun ev => match ev with InvokeBefore j => Some j | _ => None end) tr.

(** The middleware at position [j] has a [before] hook. *)
Definition has_before (allMiddlewares : list IMiddleware) (j : nat) : bool :=
  match allMiddlewares !! j with
  | Some m => bool_decide (is_Some (before m))
  | None => false
  end.

(** The positions below [k] that have a [before] hook, in order. *)
Definition hooked_below (allMiddlewares : list IMiddleware) (k : nat) : list nat :=
  filter (fun j => has_before allMiddlewares j = true) (seq 0 k).

(** A computation keeps the invariant [I] of the environment. *)
Definition preserves {X A : Type} (I : X → Prop) (m : M (X * ResponseState) A) : Prop :=
  ∀ x r, I x → I (m (x, r)).2.1.

(** What the record of invocations of a chain over [allMiddlewares] always
    satisfies: the [before] hooks invoked so far are those of the positions
    the cursor has passed, each once and in order; and at each invocation of
    the handler every [before] hook there is had been invoked. *)
Definition chain_order (allMiddlewares : list IMiddleware) (x : ChainEnv) : Prop :=
  befores (trace x) = hooked_below allMiddlewares (index x) ∧
  ∀ t1 t2, trace x = t1 ++ InvokeHandler :: t2 →
           befores t1 = hooked_below allMiddlewares (length allMiddlewares).

(** What every response the dispatcher hands out satisfies: [finished]
    mirrors [sent]; there is no body before a send; a sent response has a
    stored status. *)
Definition response_wf (r : ResponseState) : Prop :=
  r_finished r = r_sent r ∧
  (r_sent r = false → r_body r = VUndefined) ∧
  (r_sent r = true → is_Some (r_status r)).

(** A computation keeps the invariant [J] of the response. *)
Definition keeps_response {X A : Type} (J : ResponseState → Prop)
    (m : M (X * ResponseState) A) : Prop :=
  ∀ x r, J r → J (m (x, r)).2.2.

(** The same result with the environment seen through [f]. *)
Definition map_env {X Y A : Type} (f : X → Y)
    (res : outcome A * (X * ResponseState)) : outcome A * (Y * ResponseState) :=
  (res.1, (f res.2.1, res.2.2)).

(** A hook run on its own, with a continuation that does nothing, and a
    handler run on its own: the outcome and the response left. *)
Definition run_hook (p : prog unit) (r : ResponseState)
  : outcome unit * ResponseState :=
  let res := exec noop p (tt, r) in (res.1, res.2.2).

Definition run_handler (p : prog Empty_set) (r : ResponseState)
  : outcome unit * ResponseState :=
  let res := exec no_next p (tt, r) in (res.1, res.2.2).

(** The record of invocations when every middleware sits one position
    further in the list. *)
Definition shift_event (ev : event) : event :=
  match ev with
  | InvokeBefore i => InvokeBefore (S i)
  | InvokeOnError i => InvokeOnError (S i)
  | InvokeHandler => InvokeHandler
  end.

Definition shift_env (x : ChainEnv) : ChainEnv :=
  {| index := S (index x); trace := shift_event <$> trace x |}.

(** The fallback response of the top-level error path. *)
Definition internal_server_error : ResponseState :=
  {| r_status := Some 500;
     r_headers := {["content-type" := "application/json"]};
     r_body := VObj [("error", VStr "Internal Server Error")];
     r_sent := true; r_finished := true |}.

(** An engine that cannot listen nor close. *)
Definition refusing_engine : IEngine :=
  {| listen := λ _, Throw (Error "EADDRINUSE");
     close := Throw (Error "ERR_SERVER_NOT_RUNNING");
     engine_protocol := "HTTP/1.1"; isSecure := false |}.

(** A middleware with an [after] hook only. *)
Definition after_only : IMiddleware :=
  {| before := None;
     after := Some (λ _, SetHeader "x-after" "1" Return);
     onError := None |}.

(** [{ method: "GET", path: "/", handler: (req, res) => res.send("Root") }]
    and a route whose handler sets a status and then throws. *)
Definition plain_route : IRoute :=
  {| method := GET; path := "/";
     handler := λ _, Send (VStr "Root") Return;
     middlewares := None; description := None; tags := None |}.

Definition throwing_route : IRoute :=
  {| method := GET; path := "/";
     handler := λ _, SetStatus 201 (Raise (Error "boom"));
     middlewares := None; description := None; tags := None |}.

(** A middleware whose [before] hook answers 401 and does not call [next]. *)
Definition gatekeeper : IMiddleware :=
  {| before := Some (λ _, SetStatus 401 (Json (VObj [("error", VStr "Unauthorized")]) Return));
     after := None; onError := None |}.

(** A started server with the given routes and global middleware. *)
Definition server_with (rs : list IRoute) (globals : list IMiddleware) : Server :=
  {| _engine := sample_engine; _globalMiddlewares := globals;
     _routes := rs; _isRunning := true |}.

(** The throwing route behind one middleware of its own. *)
Definition guarded_throwing_route : IRoute :=
  {| method := GET; path := "/";
     handler := λ _, SetStatus 201 (Raise (Error "boom"));
     middlewares := Some [pass_through]; description := None; tags := None |}.

(** ** Calls of [next] that are not awaited

    [IMiddleware] gives [next] the type [() => void]: nothing makes a hook
    await the promise that [next()] returns.  This part follows hooks that
    may leave the promise alone.

    A call of [next] runs the closure at once, down to the point where
    every function it has entered waits at an [await].  The caller then
    goes on; the functions left waiting resume later, from the microtask
    queue, and a rejection of the promise nobody holds is reported to no
    [catch].  [start_next] and [start_hook] are this first, synchronous
    part of a call.  They also tell what is left waiting: nothing that
    acts ([Parked]: once resumed, the functions only settle), or something
    that calls the response, a hook or [next] again ([Busy]).  Hooks are
    [async] functions (they return [Promise<void>]): what a hook throws
    rejects its promise, and the catch clause of [next] runs when that
    promise has been awaited, not at once.  The order in which work left
    waiting and the steps of the caller then run is not followed here: a
    run that leaves any is marked [interleaved], and of such a run only
    the steps of the caller are kept. *)

Module Detached.

(** How a hook calls [next]. *)
Inductive how : Type :=
| Awaited      (* await next() *)
| Dropped.     (* next(), the promise left alone *)

(** [IMiddleware], [IRoute] and the fields of [Server] the dispatcher
    reads, with hooks that call [next] either way: in a hook
    [Await Awaited k] is [await next(); k] and [Await Dropped k] is
    [next(); k]. *)
Record IMiddleware : Type := {
  before : option (IRequest -> prog how);
  after : option (IRequest -> prog how);
  onError : option (jsval -> IRequest -> prog how)
}.

Record IRoute : Type := {
  method : HttpMethod;
  path : string;
  handler : IRequest -> prog Empty_set;
  middlewares : option (list IMiddleware)
}.

Record Server : Type := {
  _globalMiddlewares : list IMiddleware;
  _routes : list IRoute
}.

Definition findRoute (s : Server) (m : HttpMethod) (p : string) : option IRoute :=
  List.find (fun route => bool_decide (method route = m) && pathMatches (path route) p)
            (_routes s).

(** What calls that were not awaited leave behind. *)
Record Floating : Type := {
  unhandled : list jsval;     (* the errors of rejected promises nobody holds *)
  interleaved : bool          (* work was left waiting that acts later *)
}.

Definition settled : Floating := {| unhandled := []; interleaved := false |}.

(** The variables of one run of the chain, and the state its callbacks
    run in. *)
Definition Env : Type := ChainEnv * Floating.
Definition State : Type := Env * ResponseState.

Definition log_chain (ev : event) : M State unit :=
  modify (fun s =>
    (({| index := index s.1.1; trace := trace s.1.1 ++ [ev] |}, s.1.2), s.2)).

Definition incr_index : M State unit :=
  modify (fun s =>
    (({| index := S (index s.1.1); trace := trace s.1.1 |}, s.1.2), s.2)).

Definition note_unhandled (e : jsval) (s : State) : State :=
  ((s.1.1, {| unhandled := unhandled s.1.2 ++ [e];
              interleaved := interleaved s.1.2 |}), s.2).

Definition note_interleaved (s : State) : State :=
  ((s.1.1, {| unhandled := unhandled s.1.2; interleaved := true |}), s.2).

(** How a promise settles. *)
Inductive settlement : Type :=
| Fulfilled
| Rejected (e : jsval).

(** Where an [async] function stands when the call of it returns. *)
Inductive standing : Type :=
| Done (s : settlement)      (* it has returned or thrown *)
| Parked (s : settlement)    (* it waits at an [await]; resumed, it only settles, as [s] *)
| Busy.                      (* it waits at an [await] with work left that acts *)

Definition is_Return {K} (p : prog K) : bool :=
  match p with Return => true | _ => false end.

(** A call on the response inside a synchronous part. *)
Definition start_call (m : M ResponseState unit) (k : State -> standing * State)
    (s : State) : standing * State :=
  match m s.2 with
  | (Ok _, r') => k (s.1, r')
  | (Throw e, r') => (Done (Rejected e), (s.1, r'))
  | (OutOfFuel, r') => (Busy, (s.1, r'))
  end.

(** What is left of [await q; k] when the promise [q] settles as [q]
    without acting: [k] runs later, which acts unless it is a bare
    return. *)
Definition after_await {K} (q : settlement) (k : prog K) : standing :=
  match q with
  | Rejected e => Parked (Rejected e)
  | Fulfilled => if is_Return k then Parked Fulfilled else Busy
  end.

Section Start.
(** The synchronous part of a call of [next], with where the call stands
    when it returns: [None] is [Busy]. *)
Variable start_next : State -> option settlement * State.

(** The synchronous part of a hook. *)
Fixpoint start_hook (p : prog how) (s : State) : standing * State :=
  match p with
  | Return => (Done Fulfilled, s)
  | Raise e => (Done (Rejected e), s)
  | Read k => start_hook (k (view s.2)) s
  | SetStatus code k => start_call (setStatus code) (start_hook k) s
  | SetHeader name value k => start_call (setHeader name value) (start_hook k) s
  | Send data k => start_call (send data) (start_hook k) s
  | Json data k => start_call (json data) (start_hook k) s
  | Await Dropped k =>
      match start_next s with
      | (Some Fulfilled, s') => start_hook k s'
      | (Some (Rejected e), s') => start_hook k (note_unhandled e s')
      | (None, s') => (Busy, s')
      end
  | Await Awaited k =>
      match start_next s with
      | (Some q, s') => (after_await q k, s')
      | (None, s') => (Busy, s')
      end
  | TryCatch p h k =>
      match start_hook p s with
      | (Done Fulfilled, s') => start_hook k s'
      | (Done (Rejected e), s') =>
          match start_hook (h e) s' with
          | (Done Fulfilled, s'') => start_hook k s''
          | (Done (Rejected e'), s'') => (Done (Rejected e'), s'')
          | (Parked q, s'') => (after_await q k, s'')
          | (Busy, s'') => (Busy, s'')
          end
      | (Parked Fulfilled, s') => (after_await Fulfilled k, s')
      | (Parked (Rejected e), s') => (Busy, s')       (* [h e] runs later *)
      | (Busy, s') => (Busy, s')
      end
  end.
End Start.

Section Chain.
Variable allMiddlewares : list IMiddleware.
Variable the_route : IRoute.
Variable request : IRequest.

(** The synchronous part of the closure [next].  The closure waits at an
    [await] in each of its branches, so a call of it never returns
    [Done]. *)
Fixpoint start_next (fuel : nat) (s : State) : option settlement * State :=
  match fuel with
  | O => (None, s)
  | S fuel' =>
      let i := index s.1.1 in
      if bool_decide (length allMiddlewares ≤ i)%nat then
        match (log_chain InvokeHandler;;
               exec no_next (handler the_route request)) s with
        | (Ok _, s') => (Some Fulfilled, s')
        | (Throw e, s') => (Some (Rejected e), s')
        | (OutOfFuel, s') => (None, s')
        end
      else
        let s1 := (incr_index s).2 in
        match allMiddlewares !! i with
        | None => (Some (Rejected (Error "TypeError")), s1)
        | Some middleware =>
            let tried :=
              match before middleware with
              | Some hook =>
                  match start_hook (start_next fuel') (hook request)
                          (log_chain (InvokeBefore i) s1).2 with
                  | (Done q, s2) | (Parked q, s2) => (Some q, s2)
                  | (Busy, s2) => (None, s2)
                  end
              | None => start_next fuel' s1
              end in
            match tried with
            | (Some (Rejected e), s2) =>
                match onError middleware with
                | Some _ => (None, s2)                (* the hook runs later *)
                | None => (Some (Rejected e), s2)
                end
            | other => other
            end
        end
  end.

(** The closure [next], called either way. *)
Fixpoint next (fuel : nat) (c : how) : M State unit :=
  match fuel with
  | O => fun s => (OutOfFuel, s)
  | S fuel' =>
      match c with
      | Dropped =>
          fun s =>
            match start_next (S fuel') s with
            | (Some Fulfilled, s') => (Ok tt, s')
            | (Some (Rejected e), s') => (Ok tt, note_unhandled e s')
            | (None, s') => (Ok tt, note_interleaved s')
            end
      | Awaited =>
          let! s := get in
          let i := index s.1.1 in
          if bool_decide (length allMiddlewares ≤ i)%nat then
            log_chain InvokeHandler;;
            exec no_next (handler the_route request)
          else
            incr_index;;
            match allMiddlewares !! i with
            | None => throw (Error "TypeError")
            | Some middleware =>
                try_catch
                  (match before middleware with
                   | Some hook =>
                       log_chain (InvokeBefore i);;
                       exec (next fuel') (hook request)
                   | None => next fuel' Awaited
                   end)
                  (fun error =>
                     match onError middleware with
                     | Some hook =>
                         log_chain (InvokeOnError i);;
                         exec (next fuel') (hook error request)
                     | None => throw error
                     end)
            end
      end
  end.
End Chain.

(** The dispatcher's own computations run over the record of invocations
    and what the calls not awaited have left. *)
Definition executeMiddlewareChain (s : Server) (r : IRoute) (request : IRequest)
  : M (list event * Floating) ResponseState :=
  fun g =>
    let allMiddlewares := _globalMiddlewares s ++ default [] (middlewares r) in
    let response := createResponse in
    match next allMiddlewares r request (S (length allMiddlewares)) Awaited
               (({| index := 0; trace := g.1 |}, g.2), response) with
    | (Ok _, (env, response)) => (Ok response, (trace env.1, env.2))
    | (Throw e, (env, _)) => (Throw e, (trace env.1, env.2))
    | (OutOfFuel, (env, _)) => (OutOfFuel, (trace env.1, env.2))
    end.

(** [() => Promise.resolve()], awaited or not. *)
Definition noop {S} (_ : how) : M S unit := ret tt.

Fixpoint handleError_from (i : nat) (ms : list IMiddleware)
    (error : jsval) (request : IRequest) : M (list event * Floating) ResponseState :=
  match ms with
  | [] =>
      fun g => (createErrorResponse 500 "Internal Server Error", g)
  | middleware :: ms' =>
      match onError middleware with
      | Some hook =>
          fun g =>
            let response := createResponse in
            match exec noop (hook error request)
                    ((g.1 ++ [InvokeOnError i], g.2), response) with
            | (Ok _, (g', response)) => (Ok response, g')
            | (Throw _, (g', _)) => handleError_from (S i) ms' error request g'
            | (OutOfFuel, (g', _)) => (OutOfFuel, g')
            end
      | None => handleError_from (S i) ms' error request
      end
  end.

Definition handleError (s : Server) (error : jsval) (request : IRequest)
  : M (list event * Floating) ResponseState :=
  handleError_from 0 (_globalMiddlewares s) error request.

Definition processRequest (s : Server) (request : IRequest)
  : M (list event * Floating) ResponseState :=
  try_catch
    (match findRoute s (req_method request) (req_path request) with
     | None => fun g => (createErrorResponse 404 "Not Found", g)
     | Some r => executeMiddlewareChain s r request
     end)
    (fun error => handleError s error request).

Definition dispatch (s : Server) (request : IRequest)
  : outcome ResponseState * (list event * Floating) :=
  processRequest s request ([], settled).

(** What [handleError] does with one [onError] hook, and the middleware
    that does not settle the error. *)
Definition sweep_attempt (hook : jsval → IRequest → prog how)
    (error : jsval) (request : IRequest) : outcome unit * ResponseState :=
  let result := exec noop (hook error request) (tt, createResponse) in
  (result.1, result.2.2).

Definition declines (error : jsval) (request : IRequest) (m : IMiddleware) : Prop :=
  match onError m with
  | None => True
  | Some hook => ∃ e r, sweep_attempt hook error request = (Throw e, r)
  end.

End Detached.

(** A server whose hooks await every call of [next], among those. *)
Fixpoint awaiting (p : prog unit) : prog Detached.how :=
  match p with
  | Return => Return
  | Raise e => Raise e
  | Read k => Read (fun v => awaiting (k v))
  | SetStatus code k => SetStatus code (awaiting k)
  | SetHeader name value k => SetHeader name value (awaiting k)
  | Send data k => Send data (awaiting k)
  | Json data k => Json data (awaiting k)
  | Await _ k => Await Detached.Awaited (awaiting k)
  | TryCatch p h k => TryCatch (awaiting p) (fun e => awaiting (h e)) (awaiting k)
  end.

Definition awaiting_middleware (m : IMiddleware) : Detached.IMiddleware :=
  {| Detached.before := (fun hook request => awaiting (hook request)) <$> before m;
     Detached.after := (fun hook request => awaiting (hook request)) <$> after m;
     Detached.onError :=
       (fun hook error request => awaiting (hook error request)) <$> onError m |}.

Definition awaiting_route (r : IRoute) : Detached.IRoute :=
  {| Detached.method := method r; Detached.path := path r;
     Detached.handler := handler r;
     Detached.middlewares := fmap (M := list) awaiting_middleware <$> middlewares r |}.

Definition awaiting_server (s : Server) : Detached.Server :=
  {| Detached._globalMiddlewares := awaiting_middleware <$> _globalMiddlewares s;
     Detached._routes := awaiting_route <$> _routes s |}.

(** [{ before: (req, res, next) => { next(); } }] *)
Definition dropping : Detached.IMiddleware :=
  {| Detached.before := Some (λ _, Await Detached.Dropped Return);
     Detached.after := None; Detached.onError := None |}.

(** * Properties *)

(** ** The response builder *)

Section ResponseFacts.
Implicit Types (r : ResponseState) (c : call).

Lemma setStatus_sent r code :
  r_sent r = true →
  setStatus code r = (Throw (Error "Cannot set status after response has been sent"), r).
Proof. intros H. unfold setStatus, bind, get. by rewrite H. Qed.

Lemma setHeader_sent r name value :
  r_sent r = true →
  setHeader name value r = (Throw (Error "Cannot set headers after response has been sent"), r).
Proof. intros H. unfold setHeader, bind, get. by rewrite H. Qed.

Lemma send_sent r data :
  r_sent r = true →
  send data r = (Throw (Error "Response has already been sent"), r).
Proof. intros H. unfold send, bind, get. by rewrite H. Qed.

Lemma json_sent r data :
  r_sent r = true →
  json data r = (Throw (Error "Cannot set headers after response has been sent"), r).
Proof. intros H. unfold json, bind. by rewrite setHeader_sent. Qed.

Lemma do_call_sent r c :
  r_sent r = true → do_call c r = (Throw (rejection c), r).
Proof.
  intros H. destruct c; simpl;
    auto using setStatus_sent, setHeader_sent, send_sent, json_sent.
Qed.

Lemma do_calls_sent cs r : r_sent r = true → do_calls cs r = r.
Proof.
  induction cs as [|c cs IH]; intros H; [done|].
  simpl. rewrite do_call_sent by done. by apply IH.
Qed.

(** What [send] does to an open response. *)
Lemma send_open r data :
  r_sent r = false →
  send data r =
    (Ok tt, {| r_status := Some (status r); r_headers := r_headers r;
               r_body := data; r_sent := true; r_finished := true |}).
Proof.
  intros H. unfold send, bind, get, status. rewrite H.
  destruct r as [st hs b sn fn]; simpl in *. by destruct st; subst.
Qed.

Lemma setHeader_open r name value :
  r_sent r = false →
  setHeader name value r =
    (Ok tt, if bool_decide (name = "__proto__") then r
            else set_r_headers (<[name := value]> (r_headers r)) r).
Proof.
  intros H. unfold setHeader, bind, get. rewrite H. by case_bool_decide.
Qed.

Lemma setStatus_open r code :
  r_sent r = false → setStatus code r = (Ok tt, set_r_status (Some code) r).
Proof. intros H. unfold setStatus, bind, get. by rewrite H. Qed.

Lemma json_open r data :
  r_sent r = false →
  json data r =
    (Ok tt, {| r_status := Some (status r);
               r_headers := <["content-type" := "application/json"]> (r_headers r);
               r_body := data; r_sent := true; r_finished := true |}).
Proof.
  intros H. unfold json, bind. rewrite setHeader_open by done.
  by rewrite send_open.
Qed.

Lemma send_ok_sent r r' data : send data r = (Ok tt, r') → r_sent r' = true.
Proof.
  destruct (r_sent r) eqn:H.
  - by rewrite send_sent.
  - rewrite send_open by done. by intros [= <-].
Qed.

Lemma json_ok_sent r r' data : json data r = (Ok tt, r') → r_sent r' = true.
Proof.
  destruct (r_sent r) eqn:H.
  - by rewrite json_sent.
  - rewrite json_open by done. by intros [= <-].
Qed.

Lemma do_call_status_untouched r c :
  is_setStatus c = false → status_untouched r → status_untouched (snd (do_call c r)).
Proof.
  intros Hc Hr. destruct (r_sent r) eqn:Hs.
  { by rewrite do_call_sent. }
  destruct c; simpl in *; try done.
  - rewrite setHeader_open by done. by case_bool_decide.
  - rewrite send_open by done. right. simpl. unfold status.
    by destruct Hr as [-> | ->].
  - rewrite json_open by done. right. simpl. unfold status.
    by destruct Hr as [-> | ->].
Qed.

Lemma setStatus_terminates code r : (setStatus code r).1 ≠ OutOfFuel.
Proof.
  destruct (r_sent r) eqn:H;
    [by rewrite setStatus_sent|by rewrite setStatus_open].
Qed.

Lemma setHeader_terminates name value r : (setHeader name value r).1 ≠ OutOfFuel.
Proof.
  destruct (r_sent r) eqn:H;
    [by rewrite setHeader_sent|by rewrite setHeader_open].
Qed.

Lemma send_terminates data r : (send data r).1 ≠ OutOfFuel.
Proof.
  destruct (r_sent r) eqn:H; [by rewrite send_sent|by rewrite send_open].
Qed.

Lemma json_terminates data r : (json data r).1 ≠ OutOfFuel.
Proof.
  destruct (r_sent r) eqn:H; [by rewrite json_sent|by rewrite json_open].
Qed.

Lemma createErrorResponse_eq code message :
  createErrorResponse code message =
    Ok {| r_status := Some code;
          r_headers := {["content-type" := "application/json"]};
          r_body := VObj [("error", VStr message)];
          r_sent := true; r_finished := true |}.
Proof. reflexivity. Qed.
End ResponseFacts.

(** C1.  Once [send] or [json] has completed on a response, the response is
    sent; from then on, after any number of further calls, each call of
    [setStatus], [setHeader], [send] or [json] throws and leaves the
    response, hence its status, headers and body, as it was. *)
Theorem sent_response_is_write_once (r r' : ResponseState) (data : jsval) :
  send data r = (Ok tt, r') ∨ json data r = (Ok tt, r') →
  sent r' = true ∧
  ∀ (earlier : list call) (c : call),
    ∃ e, do_call c (do_calls earlier r') = (Throw e, r').
Proof.
  intros H.
  assert (Hs : r_sent r' = true).
  { destruct H; eauto using send_ok_sent, json_ok_sent. }
  split; [done|]. intros earlier c. exists (rejection c).
  rewrite do_calls_sent by done. by apply do_call_sent.
Qed.

Lemma sent_response_is_write_once_witness :
  let r' := {| r_status := Some 200; r_headers := ∅; r_body := VStr "Root";
               r_sent := true; r_finished := true |} in
  sent r' = true ∧
  ∀ (earlier : list call) (c : call),
    ∃ e, do_call c (do_calls earlier r') = (Throw e, r').
Proof.
  apply (sent_response_is_write_once createResponse _ (VStr "Root")).
  left. reflexivity.
Defined.

(** C8.  On a response that never received [setStatus], whatever other
    calls were made (none, or some including a [send] or [json]), the
    [status] getter reads 200. *)
Theorem status_reads_200_without_setStatus (cs : list call) :
  Forall (λ c, is_setStatus c = false) cs →
  status (do_calls cs createResponse) = 200.
Proof.
  intros H.
  assert (Hinv : status_untouched (do_calls cs createResponse)).
  { assert (H0 : status_untouched createResponse) by (by left).
    revert H0. generalize createResponse.
    induction H as [|c cs Hc _ IH]; intros r Hr; [done|].
    simpl. apply IH. by apply do_call_status_untouched. }
  unfold status. by destruct Hinv as [-> | ->].
Qed.

Lemma status_reads_200_without_setStatus_witness :
  status (do_calls [] createResponse) = 200 ∧
  status (do_calls [CallSetHeader "x-a" "1"; CallSend (VStr "Root")] createResponse) = 200.
Proof.
  split.
  - apply (status_reads_200_without_setStatus []). constructor.
  - apply (status_reads_200_without_setStatus
             [CallSetHeader "x-a" "1"; CallSend (VStr "Root")]).
    repeat constructor.
Defined.

(** C10.  The response built by [createErrorResponse] (the 404 and the 500
    fallback) comes back finalized: [sent] and [finished] are true, the
    header map has [content-type] set to [application/json], and every
    further [setStatus], [setHeader], [send] or [json] throws. *)
Theorem createErrorResponse_is_finalized (code : Z) (message : string) :
  ∃ r, createErrorResponse code message = Ok r ∧
       sent r = true ∧ finished r = true ∧
       headers r !! "content-type" = Some "application/json" ∧
       ∀ c : call, ∃ e, do_call c r = (Throw e, r).
Proof.
  rewrite createErrorResponse_eq. eexists. split; [done|].
  repeat split; try done.
  intros c. exists (rejection c). by apply do_call_sent.
Qed.

(** ** The route table and the server facade *)

Lemma find_first_match {A} (f : A → bool) (l : list A) (x : A) :
  List.find f l = Some x ↔
  ∃ l1 l2, l = l1 ++ x :: l2 ∧ f x = true ∧ Forall (λ y, f y = false) l1.
Proof.
  induction l as [|a l IH]; simpl.
  - split; [done|]. intros (l1 & l2 & H & _). by destruct l1.
  - destruct (f a) eqn:Ha.
    + split.
      * intros [= <-]. exists [], l. by repeat split.
      * intros (l1 & l2 & Hl & Hx & Hall). destruct l1 as [|b l1].
        -- simpl in Hl. by injection Hl as ->.
        -- simpl in Hl. injection Hl as <- _.
           apply Forall_cons in Hall as [Hb _]. congruence.
    + rewrite IH. split.
      * intros (l1 & l2 & -> & Hx & Hall). exists (a :: l1), l2.
        repeat split; [done|]. by constructor.
      * intros (l1 & l2 & Hl & Hx & Hall). destruct l1 as [|b l1].
        -- simpl in Hl. injection Hl as -> _. congruence.
        -- simpl in Hl. injection Hl as <- ->.
           apply Forall_cons in Hall as [_ Hall]. by exists l1, l2.
Qed.

Lemma find_none {A} (f : A → bool) (l : list A) :
  List.find f l = None ↔ Forall (λ y, f y = false) l.
Proof.
  induction l as [|a l IH]; simpl.
  - split; [constructor|done].
  - destruct (f a) eqn:Ha.
    + split; [done|]. intros H. apply Forall_cons in H as [H _]. congruence.
    + rewrite IH. split; [by constructor|]. intros H.
      by apply Forall_cons in H as [_ H].
Qed.

Lemma route_test_true (m : HttpMethod) (p : string) (r : IRoute) :
  bool_decide (method r = m) && pathMatches (path r) p = true ↔ matches m p r.
Proof.
  unfold pathMatches, matches.
  rewrite andb_true_iff, !bool_decide_eq_true. done.
Qed.

Lemma route_test_false (m : HttpMethod) (p : string) (r : IRoute) :
  bool_decide (method r = m) && pathMatches (path r) p = false ↔ ¬ matches m p r.
Proof.
  rewrite <- route_test_true. by destruct (_ && _).
Qed.

(** C7.  [findRoute] returns the first route, in registration order, whose
    method equals the given method and whose path is the same string as the
    given path, and nothing ([undefined]) exactly when no route has both. *)
Theorem findRoute_first_exact_match (s : Server) (m : HttpMethod) (p : string) :
  (∀ r, findRoute s m p = Some r ↔
        ∃ l1 l2, _routes s = l1 ++ r :: l2 ∧ matches m p r ∧
                 Forall (λ r', ¬ matches m p r') l1) ∧
  (findRoute s m p = None ↔ Forall (λ r', ¬ matches m p r') (_routes s)).
Proof.
  unfold findRoute. split.
  - intros r. rewrite find_first_match. split.
    + intros (l1 & l2 & Hl & Hr & Hall). exists l1, l2.
      split; [done|]. split; [by apply route_test_true|].
      eapply Forall_impl; [exact Hall|]. intros r'. apply route_test_false.
    + intros (l1 & l2 & Hl & Hr & Hall). exists l1, l2.
      split; [done|]. split; [by apply route_test_true|].
      eapply Forall_impl; [exact Hall|]. intros r'. apply route_test_false.
  - rewrite find_none. split; intros H; (eapply Forall_impl; [exact H|]);
      intros r'; apply route_test_false.
Qed.

Lemma start_ok_isRunning (port : Z) (s s' : Server) :
  start port s = (Ok tt, s') → isRunning s' = true.
Proof.
  unfold start, bind, get, try_catch, modify, throw, isRunning.
  destruct (_isRunning s); [done|]. simpl.
  destruct (listen (_engine s) port) as [[]| |]; simpl; [|done..].
  by intros [= <-].
Qed.

Lemma route_while_running (s : Server) (routeInput : RouteInput) :
  isRunning s = true →
  route routeInput s = (Throw (Error "Cannot add routes after server has started"), s).
Proof. unfold isRunning, route, bind, get. by intros ->. Qed.

(** C4 (what the code does).  On a server whose [start] has completed,
    [route] throws and leaves the server as it was, but [use] has no such
    guard: it returns normally and the global middleware list has grown by
    the new middleware. *)
Theorem use_is_accepted_after_start
    (port : Z) (s0 s : Server) (routeInput : RouteInput) (m : IMiddleware) :
  start port s0 = (Ok tt, s) →
  isRunning s = true ∧
  route routeInput s = (Throw (Error "Cannot add routes after server has started"), s) ∧
  use m s = (Ok tt, set_globalMiddlewares (_globalMiddlewares s ++ [m]) s) ∧
  _globalMiddlewares (snd (use m s)) ≠ _globalMiddlewares s.
Proof.
  intros Hstart. apply start_ok_isRunning in Hstart.
  repeat split; [done|by apply route_while_running|].
  simpl. intros H. apply (f_equal length) in H.
  rewrite length_app in H. simpl in H. lia.
Qed.

(** ** Running callbacks: general facts about [exec] *)

Section MonadFacts.
Context {X : Type}.
(** [R] relates the environment before a computation to the one after
    it; [P] is what the computation needs of the environment it starts
    in. *)
Variable R : X → X → Prop.
Variable P : X → Prop.
Hypothesis R_refl : ∀ x, R x x.
Hypothesis R_trans : ∀ x y z, R x y → R y z → R x z.
Hypothesis P_up : ∀ x y, P x → R x y → P y.

Lemma respects_ret {A} (a : A) : respects R P (ret a).
Proof. intros x r _. simpl. auto. Qed.

Lemma respects_throw {A} e : respects R P (@throw _ A e).
Proof. intros x r _. simpl. auto. Qed.

Lemma respects_bind {A B} (m : M (X * ResponseState) A) (k : A → M _ B) :
  respects R P m → (∀ a, respects R P (k a)) → respects R P (bind m k).
Proof.
  intros Hm Hk x r HP. unfold bind.
  destruct (Hm x r HP) as [Hf HR].
  destruct (m (x, r)) as [[a|e|] [x' r']]; simpl in *; [|done..].
  destruct (Hk a x' r') as [Hf' HR']; [by eapply P_up|].
  split; [done|]. by eapply R_trans.
Qed.

Lemma respects_try_catch {A} (m : M (X * ResponseState) A) h :
  respects R P m → (∀ e, respects R P (h e)) → respects R P (try_catch m h).
Proof.
  intros Hm Hh x r HP. unfold try_catch.
  destruct (Hm x r HP) as [Hf HR].
  destruct (m (x, r)) as [[a|e|] [x' r']]; simpl in *; [done| |done].
  destruct (Hh e x' r') as [Hf' HR']; [by eapply P_up|].
  split; [done|]. by eapply R_trans.
Qed.

(** Where [try { await m; k } catch (e) { h e }] ends, seen from where
    [m] ended. *)
Lemma try_bind_after {A B} (m : M (X * ResponseState) A) (k : A → M _ B) h x r :
  (∀ a, respects R P (k a)) → (∀ e, respects R P (h e)) →
  P (m (x, r)).2.1 →
  R (m (x, r)).2.1 (try_catch (bind m k) h (x, r)).2.1.
Proof.
  intros Hk Hh HP. unfold try_catch, bind.
  destruct (m (x, r)) as [[a|e|] [x' r']]; simpl in *; [| |done].
  - destruct (Hk a x' r' HP) as [_ HR].
    destruct (k a (x', r')) as [[b|e|] [x'' r'']]; simpl in *; [done| |done].
    destruct (Hh e x'' r'') as [_ HR']; [by eapply P_up|].
    by eapply R_trans.
  - by destruct (Hh e x' r' HP) as [_ HR].
Qed.


Lemma respects_on_response {A} (m : M ResponseState A) :
  (∀ r, (m r).1 ≠ OutOfFuel) → respects R P (on_response m).
Proof.
  intros Hm x r _. unfold on_response. simpl.
  specialize (Hm r). destruct (m r) as [o r']. simpl in *. auto.
Qed.

Lemma respects_exec {K} (nxt : K → M (X * ResponseState) unit) (p : prog K) :
  (∀ c, respects R P (nxt c)) → respects R P (exec nxt p).
Proof.
  intros Hn. induction p as [|e|k IH|code k IH|name value k IH|data k IH|data k IH
                            |c k IH|p IHp h IHh k IHk]; simpl.
  - apply respects_ret.
  - apply respects_throw.
  - intros x r HP. apply (IH (view r) x r HP).
  - apply respects_bind; [|done].
    apply respects_on_response, setStatus_terminates.
  - apply respects_bind; [|done].
    apply respects_on_response, setHeader_terminates.
  - apply respects_bind; [|done].
    apply respects_on_response, send_terminates.
  - apply respects_bind; [|done].
    apply respects_on_response, json_terminates.
  - apply respects_bind; [apply Hn|done].
  - apply respects_bind; [|done]. by apply respects_try_catch.
Qed.
(** Two continuations that agree wherever [P] holds give the same run of
    a callback started where [P] holds. *)
Lemma exec_agree {K} (nxt1 nxt2 : K → M (X * ResponseState) unit) (p : prog K) :
  (∀ c, respects R P (nxt2 c)) →
  (∀ c x r, P x → nxt1 c (x, r) = nxt2 c (x, r)) →
  ∀ x r, P x → exec nxt1 p (x, r) = exec nxt2 p (x, r).
Proof.
  intros Hn Heq.
  induction p as [|e|k IH|code k IH|name value k IH|data k IH|data k IH
                 |c k IH|p IHp h IHh k IHk]; intros x r HP; simpl; try done.
  - by apply IH.
  - unfold bind, on_response. simpl.
    destruct (setStatus code r) as [[[]|?|] ?]; auto.
  - unfold bind, on_response. simpl.
    destruct (setHeader name value r) as [[[]|?|] ?]; auto.
  - unfold bind, on_response. simpl.
    destruct (send data r) as [[[]|?|] ?]; auto.
  - unfold bind, on_response. simpl.
    destruct (json data r) as [[[]|?|] ?]; auto.
  - unfold bind. rewrite Heq by done.
    destruct (Hn c x r HP) as [_ HR].
    destruct (nxt2 c (x, r)) as [[[]|?|] [x' r']]; simpl in *; [|done..].
    apply IH. by eapply P_up.
  - unfold bind, try_catch. rewrite IHp by done.
    destruct (respects_exec nxt2 p Hn x r HP) as [_ HR].
    destruct (exec nxt2 p (x, r)) as [[[]|e|] [x' r']]; simpl in *; [| |done].
    + apply IHk. by eapply P_up.
    + assert (HP' : P x') by (by eapply P_up).
      rewrite IHh by done.
      destruct (respects_exec nxt2 (h e) Hn x' r' HP') as [_ HR'].
      destruct (exec nxt2 (h e) (x', r')) as [[[]|?|] [x'' r'']]; simpl in *;
        [|done..].
      apply IHk. by eapply P_up.
Qed.
End MonadFacts.

(** ** The same run, seen from another environment *)

Lemma bind_map_env {X Y A B} (f : X → Y)
    (m : M (X * ResponseState) A) (m' : M (Y * ResponseState) A)
    (k : A → M (X * ResponseState) B) (k' : A → M (Y * ResponseState) B) x r :
  m' (f x, r) = map_env f (m (x, r)) →
  (∀ a x r, k' a (f x, r) = map_env f (k a (x, r))) →
  bind m' k' (f x, r) = map_env f (bind m k (x, r)).
Proof.
  intros Hm Hk. unfold bind. rewrite Hm.
  destruct (m (x, r)) as [[a|e|] [x' r']]; simpl; [apply Hk|done..].
Qed.

Lemma try_catch_map_env {X Y A} (f : X → Y)
    (m : M (X * ResponseState) A) (m' : M (Y * ResponseState) A) h h' x r :
  m' (f x, r) = map_env f (m (x, r)) →
  (∀ e x r, h' e (f x, r) = map_env f (h e (x, r))) →
  try_catch m' h' (f x, r) = map_env f (try_catch m h (x, r)).
Proof.
  intros Hm Hh. unfold try_catch. rewrite Hm.
  destruct (m (x, r)) as [[a|e|] [x' r']]; simpl; [done|apply Hh|done].
Qed.

Lemma on_response_map_env {X Y A} (f : X → Y) (m : M ResponseState A) x r :
  on_response m (f x, r) = map_env f (on_response m (x, r)).
Proof. unfold on_response, map_env. simpl. by destruct (m r). Qed.

(** A callback run with continuations that correspond through [f], from
    environments that correspond through [f], ends the same way. *)
Lemma exec_map_env {X Y K} (f : X → Y)
    (nxt : K → M (X * ResponseState) unit) (nxt' : K → M (Y * ResponseState) unit)
    (p : prog K) :
  (∀ c x r, nxt' c (f x, r) = map_env f (nxt c (x, r))) →
  ∀ x r, exec nxt' p (f x, r) = map_env f (exec nxt p (x, r)).
Proof.
  intros Hn.
  induction p as [|e|k IH|code k IH|name value k IH|data k IH|data k IH
                 |c k IH|p IHp h IHh k IHk]; intros x r; simpl; try done.
  - apply bind_map_env; [apply on_response_map_env|done].
  - apply bind_map_env; [apply on_response_map_env|done].
  - apply bind_map_env; [apply on_response_map_env|done].
  - apply bind_map_env; [apply on_response_map_env|done].
  - apply bind_map_env; [apply Hn|done].
  - apply bind_map_env; [|done]. by apply try_catch_map_env.
Qed.

(** ** The middleware chain *)

Section ChainFacts.
Local Open Scope nat_scope.
Variable allMiddlewares : list IMiddleware.
Variable the_route : IRoute.
Variable request : IRequest.
Let n := length allMiddlewares.
Abbreviation next := (next allMiddlewares the_route request).
Abbreviation catch_clause := (catch_clause allMiddlewares the_route request).

Lemma chain_step_refl lo x : chain_step n lo x x.
Proof.
  split; [done|]. split; [done|]. exists []. split; [by rewrite app_nil_r|].
  intros j Hj. by apply elem_of_nil in Hj.
Qed.

Lemma chain_step_trans lo x y z :
  chain_step n lo x y → chain_step n lo y z → chain_step n lo x z.
Proof.
  intros (H1 & H2 & s1 & E1 & B1) (H3 & H4 & s2 & E2 & B2).
  split; [lia|]. split; [auto|]. exists (s1 ++ s2).
  split; [by rewrite E2, E1, app_assoc|].
  intros j Hj. apply elem_of_app in Hj as [Hj|Hj]; auto.
Qed.

Lemma chain_ready_up lo fuel x y :
  chain_ready n lo fuel x → chain_step n lo x y → chain_ready n lo fuel y.
Proof.
  intros [[H1 H2] H3] (H4 & H5 & _). unfold chain_ready.
  specialize (H5 H2). lia.
Qed.

Lemma chain_step_weaken lo lo' x y :
  lo ≤ lo' → chain_step n lo' x y → chain_step n lo x y.
Proof.
  intros Hlo (H1 & H2 & s & E & B). split; [done|]. split; [done|].
  exists s. split; [done|]. intros j Hj. specialize (B j Hj). lia.
Qed.

Lemma respects_log_chain lo fuel ev :
  (∀ j, ev = InvokeBefore j → lo ≤ j < n) →
  respects (chain_step n lo) (chain_ready n lo fuel) (log_chain ev).
Proof.
  intros Hev x r _. simpl. split; [done|].
  split; [done|]. split; [done|]. exists [ev]. split; [done|].
  intros j Hj. apply list_elem_of_singleton in Hj. by apply Hev.
Qed.

Lemma respects_exec_chain {K} lo fuel (nxt : K → M (ChainEnv * ResponseState) unit) p :
  (∀ c, respects (chain_step n lo) (chain_ready n lo fuel) (nxt c)) →
  respects (chain_step n lo) (chain_ready n lo fuel) (exec nxt p).
Proof.
  apply respects_exec;
    eauto using chain_step_refl, chain_step_trans, chain_ready_up.
Qed.

Lemma respects_bind_chain {A B} lo fuel (m : M (ChainEnv * ResponseState) A) (k : A → M _ B) :
  respects (chain_step n lo) (chain_ready n lo fuel) m →
  (∀ a, respects (chain_step n lo) (chain_ready n lo fuel) (k a)) →
  respects (chain_step n lo) (chain_ready n lo fuel) (bind m k).
Proof.
  apply respects_bind; eauto using chain_step_trans, chain_ready_up.
Qed.

(** One call of the closure, on a given state. *)
Lemma next_unfold fuel x r :
  next (S fuel) tt (x, r) =
    if bool_decide (n ≤ index x) then
      (log_chain InvokeHandler;; exec no_next (handler the_route request)) (x, r)
    else
      match allMiddlewares !! index x with
      | None => (Throw (Error "TypeError"), ({| index := S (index x); trace := trace x |}, r))
      | Some middleware =>
          try_catch
            (match before middleware with
             | Some hook =>
                 log_chain (InvokeBefore (index x));; exec (next fuel) (hook request)
             | None => next fuel tt
             end)
            (λ error,
               match onError middleware with
               | Some hook =>
                   log_chain (InvokeOnError (index x));;
                   exec (next fuel) (hook error request)
               | None => throw error
               end)
            ({| index := S (index x); trace := trace x |}, r)
      end.
Proof.
  simpl. unfold bind at 1, get at 1. simpl. unfold n.
  case_bool_decide; [done|].
  unfold bind at 1, incr_index at 1, modify at 1. simpl.
  by destruct (allMiddlewares !! index x).
Qed.

(** Started with the cursor at [i ≤ n] and more than [n - i] units of
    fuel, [next] does not run out of fuel; the cursor only moves forward
    and stays within [n], the record of invocations only grows, and the
    [before] hooks it invokes are those of positions from the cursor on. *)
Lemma next_respects fuel :
  ∀ lo, respects (chain_step n lo) (chain_ready n lo fuel) (next fuel tt).
Proof.
  induction fuel as [|fuel IH]; intros lo x r HP.
  { destruct HP as [? ?]. lia. }
  destruct HP as [[Hlo Hn] Hfuel].
  rewrite next_unfold. case_bool_decide as Hi.
  - (* the handler *)
    apply (respects_bind_chain lo (S fuel)); [| |done].
    + by apply respects_log_chain.
    + intros _. apply respects_exec_chain. intros [].
  - (* the middleware under the cursor *)
    set (i := index x) in *.
    set (x1 := {| index := S i; trace := trace x |}).
    assert (Hready : chain_ready n i fuel x1) by (unfold chain_ready; simpl; lia).
    assert (Hx1 : chain_step n lo x x1).
    { split; [simpl; lia|]. split; [simpl; lia|]. exists [].
      split; [by rewrite app_nil_r|]. intros j Hj. by apply elem_of_nil in Hj. }
    destruct (allMiddlewares !! i) as [middleware|] eqn:Hm.
    2: { simpl. split; [done|]. exact Hx1. }
    assert (Hbody : respects (chain_step n i) (chain_ready n i fuel)
              (try_catch
                 (match before middleware with
                  | Some hook =>
                      log_chain (InvokeBefore i);; exec (next fuel) (hook request)
                  | None => next fuel tt
                  end)
                 (λ error,
                    match onError middleware with
                    | Some hook =>
                        log_chain (InvokeOnError i);;
                        exec (next fuel) (hook error request)
                    | None => throw error
                    end))).
    { apply respects_try_catch;
        eauto using chain_step_refl, chain_step_trans, chain_ready_up.
      - destruct (before middleware) as [hook|]; [|apply IH].
        apply respects_bind_chain.
        + apply respects_log_chain. intros j [= <-]. lia.
        + intros _. apply respects_exec_chain. intros []. apply IH.
      - intros e. destruct (onError middleware) as [hook|].
        + apply respects_bind_chain.
          * by apply respects_log_chain.
          * intros _. apply respects_exec_chain. intros []. apply IH.
        + apply respects_throw, chain_step_refl. }
    destruct (Hbody x1 r Hready) as [Hf HR].
    split; [done|].
    eapply chain_step_trans; [exact Hx1|].
    by apply (chain_step_weaken lo i).
Qed.
Lemma try_catch_agree {S A} (m1 m2 : M S A) h1 h2 s :
  m1 s = m2 s →
  (∀ e s', m2 s = (Throw e, s') → h1 e s' = h2 e s') →
  try_catch m1 h1 s = try_catch m2 h2 s.
Proof.
  intros Hm Hh. unfold try_catch. rewrite Hm.
  destruct (m2 s) as [[?|e|] s']; auto.
Qed.

(** More fuel than needed changes nothing. *)
Lemma next_fuel_S fuel :
  ∀ lo x r, chain_ready n lo fuel x →
            next (S fuel) tt (x, r) = next fuel tt (x, r).
Proof.
  induction fuel as [|fuel IH]; intros lo x r [[Hlo Hn] Hfuel]; [lia|].
  rewrite (next_unfold (S fuel)), (next_unfold fuel).
  case_bool_decide as Hi; [done|].
  destruct (allMiddlewares !! index x) as [m|]; [|done].
  set (x1 := {| index := S (index x); trace := trace x |}).
  assert (Hready : chain_ready n (index x) fuel x1)
    by (unfold chain_ready; simpl; lia).
  assert (Hexec : ∀ (p : prog unit) y r',
            chain_ready n (index x) fuel y →
            exec (next (S fuel)) p (y, r') = exec (next fuel) p (y, r')).
  { intros p. apply (exec_agree (chain_step n (index x)) (chain_ready n (index x) fuel)
                       (chain_step_refl (index x)) (chain_step_trans (index x))
                       (chain_ready_up (index x) fuel)).
    - intros []. apply next_respects.
    - intros [] y r' Hy. by apply (IH (index x)). }
  apply try_catch_agree.
  - destruct (before m) as [hook|]; [|by apply (IH (index x))].
    unfold bind. simpl. apply Hexec. unfold chain_ready. simpl. lia.
  - intros e [x2 r2] Hbody.
    assert (Hstep : respects (chain_step n (index x)) (chain_ready n (index x) fuel)
              (match before m with
               | Some hook =>
                   log_chain (InvokeBefore (index x));; exec (next fuel) (hook request)
               | None => next fuel ()
               end)).
    { destruct (before m) as [hook|]; [|apply next_respects].
      apply respects_bind_chain.
      - apply respects_log_chain. intros j [= <-]. lia.
      - intros _. apply respects_exec_chain. intros []. apply next_respects. }
    destruct (Hstep x1 r Hready) as [_ HR]. rewrite Hbody in HR. simpl in HR.
    destruct (onError m) as [hook|]; [|done].
    unfold bind. simpl. apply Hexec.
    destruct HR as (H1 & H2 & _). unfold chain_ready in *. simpl in *. lia.
Qed.

Lemma next_fuel_more fuel extra lo x r :
  chain_ready n lo fuel x →
  next (extra + fuel) tt (x, r) = next fuel tt (x, r).
Proof.
  intros Hready. induction extra as [|extra IH]; [done|].
  simpl. rewrite <- IH. apply (next_fuel_S (extra + fuel) lo).
  destruct Hready as [? ?]. unfold chain_ready. lia.
Qed.

Lemma try_catch_log {A} ev (m : M (ChainEnv * ResponseState) A) h x r :
  try_catch (log_chain ev;; m) h (x, r) =
    try_catch m h ({| index := index x; trace := trace x ++ [ev] |}, r).
Proof. reflexivity. Qed.


Lemma try_catch_cong {S A} (m m' : M S A) h s s' :
  m s = m' s' → try_catch m h s = try_catch m' h s'.
Proof. unfold try_catch. by intros ->. Qed.



(** A [before] hook that calls [next]: the call of [next] that invokes it
    goes on as the next call of [next], then as the rest of the hook,
    inside the [try] of this middleware. *)
Lemma next_calls_next_at fuel x r m b r1 k h :
  allMiddlewares !! index x = Some m → before m = Some b →
  calls_next_at (b request) r r1 k h →
  next (S fuel) tt (x, r) =
    try_catch
      (λ s, settle (next fuel tt s) (exec (next fuel) k) (λ e, exec (next fuel) (h e)))
      (catch_clause fuel m (index x))
      ({| index := S (index x); trace := trace x ++ [InvokeBefore (index x)] |}, r1).
Proof.
  intros Hm Hb Hcalls. rewrite next_unfold.
  rewrite bool_decide_eq_false_2
    by (apply lookup_lt_Some in Hm; fold n in Hm; lia).
  rewrite Hm, Hb. fold (catch_clause fuel m (index x)).
  rewrite try_catch_log. apply try_catch_cong. apply Hcalls.
Qed.




End ChainFacts.

Arguments next : simpl never.

Section ChainResults.
Local Open Scope nat_scope.
Variables (s : Server) (r : IRoute) (request : IRequest).
Let allMiddlewares := _globalMiddlewares s ++ default [] (middlewares r).
Let start_of_chain (tr : list event) : ChainEnv * ResponseState :=
  ({| index := 0; trace := tr |}, createResponse).

Lemma executeMiddlewareChain_trace tr :
  (executeMiddlewareChain s r request tr).2 =
    trace (next allMiddlewares r request (S (length allMiddlewares)) tt
             (start_of_chain tr)).2.1.
Proof.
  unfold executeMiddlewareChain. fold allMiddlewares. fold (start_of_chain tr).
  by destruct (next _ _ _ _ _ _) as [[?|?|] [? ?]].
Qed.

Lemma executeMiddlewareChain_throws tr e x r' :
  next allMiddlewares r request (S (length allMiddlewares)) tt (start_of_chain tr)
    = (Throw e, (x, r')) →
  executeMiddlewareChain s r request tr = (Throw e, trace x).
Proof.
  unfold executeMiddlewareChain. fold allMiddlewares. fold (start_of_chain tr).
  by intros ->.
Qed.

(** The fuel [executeMiddlewareChain] hands to [next] is enough: with any
    larger amount the run is the same. *)
Lemma executeMiddlewareChain_fuel extra tr :
  next allMiddlewares r request (extra + S (length allMiddlewares)) tt
       (start_of_chain tr) =
    next allMiddlewares r request (S (length allMiddlewares)) tt (start_of_chain tr).
Proof.
  apply (next_fuel_more allMiddlewares r request _ extra 0).
  unfold chain_ready. simpl. lia.
Qed.
End ChainResults.

Section Ordering.
Local Open Scope nat_scope.
Variables (s : Server) (r : IRoute) (request : IRequest).
Variables (A B C : IMiddleware).
Hypothesis globals : _globalMiddlewares s = [A; B].
Hypothesis scoped : middlewares r = Some [C].




End Ordering.

(** [await next()] alone, as a hook body. *)
Lemma await_calls_next_at (r : ResponseState) :
  calls_next_at (Await tt Return) r r Return Raise.
Proof.
  intros X nxt x. simpl. unfold bind, settle.
  by destruct (nxt tt (x, r)) as [[[]|e|] s'].
Qed.


Lemma pass_through_passes_on request e : before_passes_on pass_through request e.
Proof.
  eexists. split; [done|]. intros r Hr. exists r, Return, Raise.
  split; [apply await_calls_next_at|done].
Qed.

(** Every hook body, on every response, either ends without having
    called [next], returning or throwing, or calls [next]: the two ways a
    hook is spoken of below leave nothing out. *)
Lemma hook_ends_or_calls_next (p : prog unit) :
  ∀ r,
    (∃ r', (∀ X (nxt : unit → M (X * ResponseState) unit) x,
              exec nxt p (x, r) = (Ok tt, (x, r'))) ∨
           ∃ e, throws_at p r r' e) ∨
    (∃ r1 k h, calls_next_at p r r1 k h).
Proof.
  assert (Hcall : ∀ (m : M ResponseState unit) (q : prog unit)
            (body : ∀ X, (unit → M (X * ResponseState) unit) → M (X * ResponseState) unit),
            (∀ r, (m r).1 ≠ OutOfFuel) →
            (∀ X nxt s, body X nxt s = (on_response m;; exec nxt q) s) →
            (∀ r, (∃ r', (∀ X (nxt : unit → M (X * ResponseState) unit) x,
                            exec nxt q (x, r) = (Ok tt, (x, r'))) ∨
                         ∃ e, throws_at q r r' e) ∨
                  (∃ r1 k h, calls_next_at q r r1 k h)) →
            ∀ r, (∃ r', (∀ X (nxt : unit → M (X * ResponseState) unit) x,
                           body X nxt (x, r) = (Ok tt, (x, r'))) ∨
                        ∃ e, ∀ X (nxt : unit → M (X * ResponseState) unit) x,
                               body X nxt (x, r) = (Throw e, (x, r'))) ∨
                 (∃ r1 k h, ∀ X (nxt : unit → M (X * ResponseState) unit) x,
                    body X nxt (x, r) =
                      settle (nxt tt (x, r1)) (exec nxt k) (λ e, exec nxt (h e)))).
  { intros m q body Hm Hbody IH r. specialize (Hm r).
    destruct (m r) as [[[]|e|] r'] eqn:E; simpl in Hm; [| |done].
    - destruct (IH r') as [(r'' & [Hok|(e & Hthrow)])|(r1 & k & h & Hcalls)].
      + left. exists r''. left. intros X nxt x. rewrite Hbody.
        unfold bind, on_response. simpl. rewrite E. apply Hok.
      + left. exists r''. right. exists e. intros X nxt x. rewrite Hbody.
        unfold bind, on_response. simpl. rewrite E. apply Hthrow.
      + right. exists r1, k, h. intros X nxt x. rewrite Hbody.
        unfold bind, on_response. simpl. rewrite E. apply Hcalls.
    - left. exists r'. right. exists e. intros X nxt x. rewrite Hbody.
      unfold bind, on_response. simpl. by rewrite E. }
  induction p as [|e|k IH|code k IH|name value k IH|data k IH|data k IH
                 |[] k IH|p IHp h IHh k IHk]; intros r.
  - left. exists r. by left.
  - left. exists r. right. by exists e.
  - destruct (IH (view r) r) as [(r' & [Hok|(e & Hthrow)])|(r1 & k' & h & Hcalls)].
    + left. exists r'. left. intros X nxt x. apply Hok.
    + left. exists r'. right. exists e. intros X nxt x. apply Hthrow.
    + right. exists r1, k', h. intros X nxt x. apply Hcalls.
  - apply (Hcall (setStatus code) k (λ X nxt, exec nxt (SetStatus code k)));
      [apply setStatus_terminates|done|done].
  - apply (Hcall (setHeader name value) k (λ X nxt, exec nxt (SetHeader name value k)));
      [apply setHeader_terminates|done|done].
  - apply (Hcall (send data) k (λ X nxt, exec nxt (Send data k)));
      [apply send_terminates|done|done].
  - apply (Hcall (json data) k (λ X nxt, exec nxt (Json data k)));
      [apply json_terminates|done|done].
  - right. exists r, k, Raise. intros X nxt x. simpl. unfold bind, settle.
    by destruct (nxt tt (x, r)) as [[[]|e|] s'].
  - destruct (IHp r) as [(r' & [Hok|(e & Hthrow)])|(r1 & k1 & h1 & Hcalls)].
    + (* the body of the [try] returns *)
      destruct (IHk r') as [(r'' & [Hok'|(e & Hthrow')])|(r1 & k1 & h1 & Hcalls)].
      * left. exists r''. left. intros X nxt x. simpl. unfold bind, try_catch.
        rewrite Hok. apply Hok'.
      * left. exists r''. right. exists e. intros X nxt x. simpl.
        unfold bind, try_catch. rewrite Hok. apply Hthrow'.
      * right. exists r1, k1, h1. intros X nxt x. simpl. unfold bind, try_catch.
        rewrite Hok. apply Hcalls.
    + (* the body of the [try] throws: the handler runs *)
      destruct (IHh e r') as [(r'' & [Hok|(e' & Hthrow')])|(r1 & k1 & h1 & Hcalls)].
      * destruct (IHk r'') as [(r3 & [Hok'|(e' & Hthrow')])|(r1 & k1 & h1 & Hcalls)].
        -- left. exists r3. left. intros X nxt x. simpl. unfold bind, try_catch.
           rewrite Hthrow, Hok. apply Hok'.
        -- left. exists r3. right. exists e'. intros X nxt x. simpl.
           unfold bind, try_catch. rewrite Hthrow, Hok. apply Hthrow'.
        -- right. exists r1, k1, h1. intros X nxt x. simpl. unfold bind, try_catch.
           rewrite Hthrow, Hok. apply Hcalls.
      * left. exists r''. right. exists e'. intros X nxt x. simpl.
        unfold bind, try_catch. by rewrite Hthrow, Hthrow'.
      * right. exists r1, (TryCatch k1 Raise k), (λ e', TryCatch (h1 e') Raise k).
        intros X nxt x. simpl. unfold bind, try_catch. rewrite Hthrow, Hcalls.
        unfold settle. destruct (nxt tt (x, r1)) as [[[]|e'|] s']; [| |done].
        -- by destruct (exec nxt k1 s') as [[[]|?|] ?].
        -- by destruct (exec nxt (h1 e') s') as [[[]|?|] ?].
    + (* the body of the [try] calls [next] *)
      right. exists r1, (TryCatch k1 h k), (λ e, TryCatch (h1 e) h k).
      intros X nxt x. simpl. unfold bind, try_catch. rewrite Hcalls.
      unfold settle. by destruct (nxt tt (x, r1)) as [[[]|e|] s'].
Qed.





(** ** The top-level error path *)

Section Sweep.
Local Open Scope nat_scope.

(** With the no-op continuation a hook touches nothing but the response
    it was given. *)
Lemma exec_noop_env {X} (p : prog unit) (x : X) (r : ResponseState) :
  exec noop p (x, r) =
    ((exec noop p (tt, r)).1, (x, (exec noop p (tt, r)).2.2)).
Proof.
  revert r.
  induction p as [|e|k IH|code k IH|name value k IH|data k IH|data k IH
                 |c k IH|p IHp h IHh k IHk]; intros r; simpl; try done.
  - unfold bind, on_response. simpl.
    destruct (setStatus code r) as [[[]|e|] r']; simpl; [apply IH|done..].
  - unfold bind, on_response. simpl.
    destruct (setHeader name value r) as [[[]|e|] r']; simpl; [apply IH|done..].
  - unfold bind, on_response. simpl.
    destruct (send data r) as [[[]|e|] r']; simpl; [apply IH|done..].
  - unfold bind, on_response. simpl.
    destruct (json data r) as [[[]|e|] r']; simpl; [apply IH|done..].
  - unfold bind, noop, ret. apply IH.
  - unfold bind, try_catch. rewrite (IHp r).
    destruct (exec noop p (tt, r)) as [[[]|e|] [[] r']]; simpl; [apply IHk| |done].
    rewrite (IHh e r').
    destruct (exec noop (h e) (tt, r')) as [[[]|e'|] [[] r'']]; simpl;
      [apply IHk|done..].
Qed.


Lemma exec_noop_sweep_attempt hook error request (tr : list event) :
  exec noop (hook error request) (tr, createResponse) =
    ((sweep_attempt hook error request).1,
     (tr, (sweep_attempt hook error request).2)).
Proof.
  rewrite exec_noop_env. unfold sweep_attempt.
  by destruct (exec noop (hook error request) (tt, createResponse)) as [o [[] r]].
Qed.


Variables (error : jsval) (request : IRequest).

Lemma onError_positions_app i l1 l2 :
  onError_positions i (l1 ++ l2) =
    onError_positions i l1 ++ onError_positions (i + length l1) l2.
Proof.
  revert i. induction l1 as [|m l1 IH]; intros i; simpl.
  - by rewrite Nat.add_0_r.
  - rewrite IH, Nat.add_succ_r. by destruct (onError m).
Qed.

(** The middleware that decline are passed over, each attempt leaving
    its mark in the record of invocations. *)
Lemma handleError_from_declined l1 :
  ∀ i rest tr,
    Forall (declines error request) l1 →
    handleError_from i (l1 ++ rest) error request tr =
      handleError_from (i + length l1) rest error request
        (tr ++ (InvokeOnError <$> onError_positions i l1)).
Proof.
  induction l1 as [|m l1 IH]; intros i rest tr Hall.
  - simpl. by rewrite Nat.add_0_r, app_nil_r.
  - apply Forall_cons in Hall as [Hm Hall]. simpl.
    unfold declines in Hm. destruct (onError m) as [hook|].
    + destruct Hm as (e & r' & Hm).
      rewrite exec_noop_sweep_attempt, Hm. simpl.
      rewrite IH by done. by rewrite Nat.add_succ_r, <- app_assoc.
    + rewrite IH by done. by rewrite Nat.add_succ_r.
Qed.

Lemma handleError_from_handled i m rest hook response tr :
  onError m = Some hook →
  sweep_attempt hook error request = (Ok tt, response) →
  handleError_from i (m :: rest) error request tr =
    (Ok response, tr ++ [InvokeOnError i]).
Proof.
  intros Hm Hrun. simpl. rewrite Hm, exec_noop_sweep_attempt, Hrun. done.
Qed.

(** The walk when every middleware declines, and when one settles. *)
Lemma handleError_from_all_declined ms tr :
  Forall (declines error request) ms →
  handleError_from 0 ms error request tr =
    (Ok {| r_status := Some 500%Z;
           r_headers := {["content-type" := "application/json"]};
           r_body := VObj [("error", VStr "Internal Server Error")];
           r_sent := true; r_finished := true |},
     tr ++ (InvokeOnError <$> onError_positions 0 ms)).
Proof.
  intros Hall. rewrite <- (app_nil_r ms) at 1.
  rewrite handleError_from_declined by done. simpl.
  by rewrite createErrorResponse_eq.
Qed.

Lemma handleError_from_first_settles l1 m l2 hook response tr :
  Forall (declines error request) l1 →
  onError m = Some hook →
  sweep_attempt hook error request = (Ok tt, response) →
  handleError_from 0 (l1 ++ m :: l2) error request tr =
    (Ok response, tr ++ (InvokeOnError <$> onError_positions 0 (l1 ++ [m]))).
Proof.
  intros Hl1 Hm Hrun.
  rewrite handleError_from_declined by done.
  rewrite (handleError_from_handled _ _ _ hook response) by done.
  rewrite onError_positions_app. simpl. rewrite Hm.
  rewrite fmap_app, app_assoc. reflexivity.
Qed.
End Sweep.

(** ** The chain when hooks may call [next] without awaiting it *)

Section DetachedFacts.
Local Open Scope nat_scope.
Variable allMiddlewares : list Detached.IMiddleware.
Variable the_route : Detached.IRoute.
Variable request : IRequest.
Let n := length allMiddlewares.
Let step (x y : Detached.Env) : Prop := chain_step n 0 x.1 y.1.

Local Ltac arith := unfold Detached.State, Detached.Env in *; simpl in *; lia.

Lemma step_refl x : step x x.
Proof.
  split; [done|]. split; [done|]. exists []. split; [by rewrite app_nil_r|].
  intros j Hj. by apply elem_of_nil in Hj.
Qed.

Lemma step_trans x y z : step x y → step y z → step x z.
Proof.
  intros (H1 & H2 & s1 & E1 & B1) (H3 & H4 & s2 & E2 & B2).
  split; [arith|]. split; [auto|]. exists (s1 ++ s2).
  split; [by rewrite E2, E1, app_assoc|].
  intros j Hj. apply elem_of_app in Hj as [Hj|Hj]; auto.
Qed.


Lemma step_log ev (s : Detached.State) :
  (∀ j, ev = InvokeBefore j → j < n) →
  step s.1 (Detached.log_chain ev s).2.1.
Proof.
  intros Hev. split; [done|]. split; [done|]. exists [ev]. split; [done|].
  intros j Hj. apply list_elem_of_singleton in Hj. symmetry in Hj.
  specialize (Hev j Hj). arith.
Qed.

Lemma step_incr (s : Detached.State) :
  index s.1.1 < n → step s.1 (Detached.incr_index s).2.1.
Proof.
  intros Hi. unfold step, chain_step, Detached.incr_index, modify. simpl.
  split; [arith|]. split; [arith|]. exists [].
  split; [by rewrite app_nil_r|]. intros j Hj. by apply elem_of_nil in Hj.
Qed.


(** The handler changes nothing of the environment it runs in. *)
Lemma step_handler (s : Detached.State) :
  step s.1 (exec no_next (Detached.handler the_route request) s).2.1.
Proof.
  destruct s as [x r0].
  rewrite (exec_map_env (λ _ : unit, x) no_next no_next _ ltac:(intros []) tt r0).
  apply step_refl.
Qed.

Section StartHook.
Variable start_next : Detached.State → option Detached.settlement * Detached.State.
Hypothesis start_next_step : ∀ s, step s.1 (start_next s).2.1.

Lemma start_call_step (m : M ResponseState unit) k (s : Detached.State) :
  (∀ s', step s'.1 (k s').2.1) →
  step s.1 (Detached.start_call m k s).2.1.
Proof.
  intros Hk. unfold Detached.start_call.
  destruct (m s.2) as [[[]|e|] r']; simpl; [|apply step_refl..].
  apply (Hk (s.1, r')).
Qed.

Lemma start_hook_step (p : prog Detached.how) :
  ∀ s, step s.1 (Detached.start_hook start_next p s).2.1.
Proof.
  induction p as [|e|k IH|code k IH|name value k IH|data k IH|data k IH
                 |c k IH|p IHp h IHh k IHk]; intros s; simpl.
  - apply step_refl.
  - apply step_refl.
  - apply IH.
  - by apply start_call_step.
  - by apply start_call_step.
  - by apply start_call_step.
  - by apply start_call_step.
  - pose proof (start_next_step s) as Hs.
    destruct c; destruct (start_next s) as [[[|e]|] s']; simpl in *; try done.
    + eapply step_trans; [exact Hs|]. apply IH.
    + eapply step_trans; [exact Hs|]. apply (IH (Detached.note_unhandled e s')).
  - pose proof (IHp s) as Hp.
    destruct (Detached.start_hook start_next p s) as [[[|e]|[|e]|] s']; simpl in *;
      try done.
    + eapply step_trans; [exact Hp|]. apply IHk.
    + pose proof (IHh e s') as Hh.
      destruct (Detached.start_hook start_next (h e) s') as [[[|e']|q|] s''];
        simpl in *; try (by eapply step_trans).
      eapply step_trans; [exact Hp|]. eapply step_trans; [exact Hh|]. apply IHk.
Qed.
End StartHook.

Lemma start_next_step fuel :
  ∀ s, step s.1 (Detached.start_next allMiddlewares the_route request fuel s).2.1.
Proof.
  induction fuel as [|fuel IH]; intros s; simpl; [apply step_refl|].
  fold n. case_bool_decide as Hi.
  - pose proof (step_log InvokeHandler s ltac:(done)) as Hl.
    pose proof (step_handler (Detached.log_chain InvokeHandler s).2) as Hh.
    unfold bind at 1. simpl in *.
    destruct (exec no_next _ _) as [[[]|e|] s']; simpl in *; by eapply step_trans.
  - pose proof (step_incr s ltac:(arith)) as Hs1.
    destruct (allMiddlewares !! index s.1.1) as [m|] eqn:Hm; [|done].
    assert (Htried : step s.1
              (match Detached.before m with
               | Some hook =>
                   match Detached.start_hook
                           (Detached.start_next allMiddlewares the_route request fuel)
                           (hook request)
                           (Detached.log_chain (InvokeBefore (index s.1.1))
                              (Detached.incr_index s).2).2 with
                   | (Detached.Done q, s2) | (Detached.Parked q, s2) => (Some q, s2)
                   | (Detached.Busy, s2) => (None, s2)
                   end
               | None =>
                   Detached.start_next allMiddlewares the_route request fuel
                     (Detached.incr_index s).2
               end).2.1).
    { destruct (Detached.before m) as [hook|].
      - pose proof (step_log (InvokeBefore (index s.1.1)) (Detached.incr_index s).2
                      ltac:(intros j [= <-]; arith)) as Hl.
        pose proof (start_hook_step _ IH (hook request)
                      (Detached.log_chain (InvokeBefore (index s.1.1))
                         (Detached.incr_index s).2).2) as Hh.
        destruct (Detached.start_hook _ _ _) as [[q|q|] s2]; simpl in *;
          (eapply step_trans; [exact Hs1|]); by eapply step_trans.
      - eapply step_trans; [exact Hs1|]. apply IH. }
    destruct (match Detached.before m with Some _ => _ | None => _ end)
      as [[[|e]|] s2]; simpl in *; try done.
    by destruct (Detached.onError m).
Qed.

(** One awaited call of the closure, on a given state. *)
Lemma detached_next_unfold fuel (x : Detached.Env) r :
  Detached.next allMiddlewares the_route request (S fuel) Detached.Awaited (x, r) =
    if bool_decide (n ≤ index x.1) then
      (Detached.log_chain InvokeHandler;;
       exec no_next (Detached.handler the_route request)) (x, r)
    else
      match allMiddlewares !! index x.1 with
      | None =>
          (Throw (Error "TypeError"),
           (({| index := S (index x.1); trace := trace x.1 |}, x.2), r))
      | Some middleware =>
          try_catch
            (match Detached.before middleware with
             | Some hook =>
                 Detached.log_chain (InvokeBefore (index x.1));;
                 exec (Detached.next allMiddlewares the_route request fuel)
                   (hook request)
             | None =>
                 Detached.next allMiddlewares the_route request fuel Detached.Awaited
             end)
            (λ error,
               match Detached.onError middleware with
               | Some hook =>
                   Detached.log_chain (InvokeOnError (index x.1));;
                   exec (Detached.next allMiddlewares the_route request fuel)
                     (hook error request)
               | None => throw error
               end)
            (({| index := S (index x.1); trace := trace x.1 |}, x.2), r)
      end.
Proof.
  simpl. unfold bind at 1, get at 1. simpl. unfold n.
  case_bool_decide; [done|].
  unfold bind at 1, Detached.incr_index at 1, modify at 1. simpl.
  by destruct (allMiddlewares !! index x.1).
Qed.


(** A call of [next] that is not awaited returns, whatever becomes of the
    promise. *)
Lemma detached_next_dropped fuel (s : Detached.State) :
  ∃ s', Detached.next allMiddlewares the_route request (S fuel) Detached.Dropped s =
          (Ok tt, s').
Proof.
  change (Detached.next allMiddlewares the_route request (S fuel) Detached.Dropped s)
    with (match Detached.start_next allMiddlewares the_route request (S fuel) s with
          | (Some Detached.Fulfilled, s') => (Ok tt, s')
          | (Some (Detached.Rejected e), s') => (Ok tt, Detached.note_unhandled e s')
          | (None, s') => (Ok tt, Detached.note_interleaved s')
          end).
  destruct (Detached.start_next _ _ _ _ _) as [[[|e]|] s']; by eexists.
Qed.
End DetachedFacts.

Arguments Detached.next : simpl never.
Arguments Detached.start_next : simpl never.


Section DetachedSweep.
Local Open Scope nat_scope.
Variables (error : jsval) (request : IRequest).



End DetachedSweep.

(** ** The dispatcher *)

Lemma processRequest_not_found (s : Server) (request : IRequest) (tr : list event) :
  findRoute s (req_method request) (req_path request) = None →
  processRequest s request tr =
    (Ok {| r_status := Some 404;
           r_headers := {["content-type" := "application/json"]};
           r_body := VObj [("error", VStr "Not Found")];
           r_sent := true; r_finished := true |}, tr).
Proof. intros H. unfold processRequest, try_catch. by rewrite H. Qed.

Lemma processRequest_found (s : Server) (request : IRequest) (tr : list event) r :
  findRoute s (req_method request) (req_path request) = Some r →
  processRequest s request tr =
    try_catch (executeMiddlewareChain s r request)
      (λ error, handleError s error request) tr.
Proof. intros H. unfold processRequest. by rewrite H. Qed.

(** C5.  An error that leaves the middleware chain is handed to
    [handleError], and what [handleError] returns is what [processRequest]
    returns.  [handleError] walks the global middleware in registration
    order.  Each one that has [onError] gets the error, the request, a
    response fresh from [createResponse] and a continuation that does
    nothing.  The first of these calls that returns normally ends the walk,
    and the response it was given is the result; a call that throws is
    passed over and the walk goes on.  When every one throws, or none has
    [onError], the result is the response with status 500 and body
    [{ error: "Internal Server Error" }]. *)
Theorem handleError_sweeps_global_middleware
    (s : Server) (request : IRequest) (r : IRoute) (error : jsval)
    (tr tr1 : list event) :
  findRoute s (req_method request) (req_path request) = Some r →
  executeMiddlewareChain s r request tr = (Throw error, tr1) →
  processRequest s request tr = handleError s error request tr1 ∧
  (∀ l1 m l2 hook response,
     _globalMiddlewares s = l1 ++ m :: l2 →
     Forall (declines error request) l1 →
     onError m = Some hook →
     sweep_attempt hook error request = (Ok tt, response) →
     processRequest s request tr =
       (Ok response, tr1 ++ (InvokeOnError <$> onError_positions 0 (l1 ++ [m])))) ∧
  (Forall (declines error request) (_globalMiddlewares s) →
   ∃ response,
     processRequest s request tr =
       (Ok response,
        tr1 ++ (InvokeOnError <$> onError_positions 0 (_globalMiddlewares s))) ∧
     status response = 500 ∧
     body response = VObj [("error", VStr "Internal Server Error")]).
Proof.
  intros Hfind Hchain.
  assert (Hp : processRequest s request tr = handleError s error request tr1).
  { rewrite (processRequest_found s request tr r Hfind).
    unfold try_catch. by rewrite Hchain. }
  rewrite Hp. split; [done|]. unfold handleError. split.
  - intros l1 m l2 hook response -> Hl1 Hm Hrun.
    by apply (handleError_from_first_settles error request l1 m l2 hook).
  - intros Hall. eexists. split.
    + by apply handleError_from_all_declined.
    + split; reflexivity.
Qed.

Lemma handleError_sweeps_global_middleware_witness :
  processRequest
      (sample_server [failing; rethrowing; failing_recovering; rethrowing])
      (sample_request GET "/") [] =
    (Ok {| r_status := Some 503;
           r_headers := {["content-type" := "application/json"]};
           r_body := VObj [("error", VStr "Service Unavailable")];
           r_sent := true; r_finished := true |},
     [InvokeBefore 0; InvokeOnError 1; InvokeOnError 2]%nat) ∧
  ∃ response,
    processRequest (sample_server [failing; rethrowing]) (sample_request GET "/") [] =
      (Ok response, [InvokeBefore 0; InvokeOnError 1]%nat) ∧
    status response = 500 ∧
    body response = VObj [("error", VStr "Internal Server Error")].
Proof.
  split.
  - apply (proj1 (proj2 (handleError_sweeps_global_middleware
                    (sample_server [failing; rethrowing; failing_recovering; rethrowing])
                    (sample_request GET "/") root_route (Error "boom")
                    [] [InvokeBefore 0]%nat eq_refl eq_refl))
             [failing; rethrowing] failing_recovering [rethrowing]
             (λ _ _, SetStatus 503
                       (Json (VObj [("error", VStr "Service Unavailable")]) Return))).
    + reflexivity.
    + repeat constructor. simpl. by eexists _, _.
    + reflexivity.
    + reflexivity.
  - apply (proj2 (proj2 (handleError_sweeps_global_middleware
                    (sample_server [failing; rethrowing])
                    (sample_request GET "/") root_route (Error "boom")
                    [] [InvokeBefore 0]%nat eq_refl eq_refl))).
    repeat constructor. simpl. by eexists _, _.
Defined.






(** C6.  A request whose method and path match no route is answered with
    status 404 and body [{ error: "Not Found" }], and the dispatcher has
    invoked no middleware hook and no handler. *)
Theorem unmatched_request_gets_404 (s : Server) (request : IRequest) :
  findRoute s (req_method request) (req_path request) = None →
  ∃ response,
    dispatch s request = (Ok response, []) ∧
    status response = 404 ∧
    body response = VObj [("error", VStr "Not Found")].
Proof.
  intros H. unfold dispatch. rewrite processRequest_not_found by done.
  eexists. split; [done|]. split; reflexivity.
Qed.

Lemma unmatched_request_gets_404_witness :
  ∃ response,
    dispatch (sample_server [pass_through; failing]) (sample_request POST "/missing")
      = (Ok response, []) ∧
    status response = 404 ∧
    body response = VObj [("error", VStr "Not Found")].
Proof.
  apply (unmatched_request_gets_404
           (sample_server [pass_through; failing]) (sample_request POST "/missing")).
  reflexivity.
Defined.

(** ** The [after] hooks *)

Section After.
Local Open Scope nat_scope.

Lemma exec_ext {X K} (nxt1 nxt2 : K → M (X * ResponseState) unit) (p : prog K) :
  (∀ c s, nxt1 c s = nxt2 c s) → ∀ s, exec nxt1 p s = exec nxt2 p s.
Proof.
  intros Hn.
  induction p as [|e|k IH|code k IH|name value k IH|data k IH|data k IH
                 |c k IH|p IHp h IHh k IHk]; intros s; simpl; try done.
  - unfold bind. destruct (on_response _ s) as [[[]|?|] ?]; auto.
  - unfold bind. destruct (on_response _ s) as [[[]|?|] ?]; auto.
  - unfold bind. destruct (on_response _ s) as [[[]|?|] ?]; auto.
  - unfold bind. destruct (on_response _ s) as [[[]|?|] ?]; auto.
  - unfold bind. rewrite Hn. destruct (nxt2 c s) as [[[]|?|] ?]; auto.
  - unfold bind, try_catch. rewrite IHp.
    destruct (exec nxt2 p s) as [[[]|e|] s']; auto.
    rewrite IHh. destruct (exec nxt2 (h e) s') as [[[]|?|] ?]; auto.
Qed.

Lemma try_catch_ext {S A} (m1 m2 : M S A) h1 h2 s :
  (∀ s, m1 s = m2 s) → (∀ e s, h1 e s = h2 e s) →
  try_catch m1 h1 s = try_catch m2 h2 s.
Proof.
  intros Hm Hh. unfold try_catch. rewrite Hm.
  destruct (m2 s) as [[?|e|] s']; auto.
Qed.

Lemma next_erase_after allMiddlewares r request fuel :
  ∀ u s,
    next (erase_after <$> allMiddlewares) (erase_after_route r) request fuel u s =
      next allMiddlewares r request fuel u s.
Proof.
  induction fuel as [|fuel IH]; intros [] [x r']; [done|].
  rewrite !next_unfold, length_fmap, list_lookup_fmap.
  case_bool_decide; [done|].
  destruct (allMiddlewares !! index x) as [m|]; [|done]. simpl.
  apply try_catch_ext.
  - intros s. destruct (before m) as [hook|]; [|apply IH].
    unfold bind. simpl. by apply exec_ext.
  - intros e s. destruct (onError m) as [hook|]; [|done].
    unfold bind. simpl. by apply exec_ext.
Qed.

Lemma handleError_from_erase_after ms error request :
  ∀ i tr,
    handleError_from i (erase_after <$> ms) error request tr =
      handleError_from i ms error request tr.
Proof.
  induction ms as [|m ms IH]; intros i tr; [done|]. simpl.
  destruct (onError m) as [hook|]; [|apply IH].
  destruct (exec noop (hook error request) _) as [[[]|e|] [tr' r']]; auto.
Qed.

Lemma findRoute_erase_after s m p :
  findRoute (erase_after_server s) m p = erase_after_route <$> findRoute s m p.
Proof.
  unfold findRoute. simpl. induction (_routes s) as [|r rs IH]; [done|].
  simpl. by destruct (bool_decide (method r = m) && pathMatches (path r) p).
Qed.

Lemma executeMiddlewareChain_erase_after s r request tr :
  executeMiddlewareChain (erase_after_server s) (erase_after_route r) request tr =
    executeMiddlewareChain s r request tr.
Proof.
  unfold executeMiddlewareChain. simpl.
  replace ((erase_after <$> _globalMiddlewares s) ++
           default [] (fmap (M := list) erase_after <$> middlewares r))
    with (erase_after <$> (_globalMiddlewares s ++ default [] (middlewares r))).
  2: { rewrite fmap_app. by destruct (middlewares r). }
  by rewrite length_fmap, next_erase_after.
Qed.

(** Removing every [after] hook from a server changes no dispatch. *)
Lemma processRequest_erase_after s request tr :
  processRequest (erase_after_server s) request tr = processRequest s request tr.
Proof.
  unfold processRequest, try_catch. rewrite findRoute_erase_after.
  destruct (findRoute s (req_method request) (req_path request)) as [r|]; simpl.
  - rewrite executeMiddlewareChain_erase_after.
    destruct (executeMiddlewareChain s r request tr) as [[?|e|] tr1]; [done| |done].
    apply handleError_from_erase_after.
  - done.
Qed.
End After.

(** C9.  No dispatch invokes an [after] hook: two servers that differ only
    in the [after] hooks of their middleware (global or route-scoped) give,
    for every request, the same response and the same record of
    invocations, whatever those hooks are. *)
Theorem after_hooks_are_inert (s s' : Server) (request : IRequest) :
  erase_after_server s = erase_after_server s' →
  dispatch s request = dispatch s' request.
Proof.
  intros H. unfold dispatch.
  rewrite <- (processRequest_erase_after s), <- (processRequest_erase_after s').
  by rewrite H.
Qed.

Lemma after_hooks_are_inert_witness :
  dispatch (sample_server [pass_through; failing]) (sample_request GET "/") =
  dispatch (sample_server [with_after pass_through; with_after failing])
    (sample_request GET "/").
Proof.
  apply (after_hooks_are_inert
           (sample_server [pass_through; failing])
           (sample_server [with_after pass_through; with_after failing])).
  reflexivity.
Defined.

(** ** Instances on the sample servers *)

Lemma use_is_accepted_after_start_witness :
  let s := set_isRunning true (newServer sample_engine) in
  isRunning s = true ∧
  route (OneRoute root_route) s =
    (Throw (Error "Cannot add routes after server has started"), s) ∧
  use pass_through s =
    (Ok tt, set_globalMiddlewares (_globalMiddlewares s ++ [pass_through]) s) ∧
  _globalMiddlewares (snd (use pass_through s)) ≠ _globalMiddlewares s.
Proof.
  apply (use_is_accepted_after_start 3000 (newServer sample_engine)).
  reflexivity.
Defined.

Lemma findRoute_first_exact_match_witness :
  findRoute (sample_server []) GET "/" = Some root_route ∧
  findRoute (sample_server []) GET "/index/" = None ∧
  findRoute (sample_server []) POST "/" = None.
Proof.
  destruct (findRoute_first_exact_match (sample_server []) GET "/") as [Hsome _].
  destruct (findRoute_first_exact_match (sample_server []) GET "/index/") as [_ Hnone1].
  destruct (findRoute_first_exact_match (sample_server []) POST "/") as [_ Hnone2].
  split; [|split].
  - apply Hsome. exists [], []. by repeat split.
  - apply Hnone1. repeat constructor. by intros [_ [=]].
  - apply Hnone2. repeat constructor. by intros [[=] _].
Defined.

(** * Further properties of the code *)

(** ** The response builder *)

Lemma do_call_open_status (r : ResponseState) (c : call) (code : Z) :
  is_setStatus c = false → r_status r = Some code →
  r_status (do_call c r).2 = Some code.
Proof.
  intros Hc Hr. destruct (r_sent r) eqn:Hs.
  { by rewrite do_call_sent. }
  destruct c; simpl in *; try done.
  - rewrite setHeader_open by done. by case_bool_decide.
  - rewrite send_open by done. simpl. unfold status. by rewrite Hr.
  - rewrite json_open by done. simpl. unfold status. by rewrite Hr.
Qed.

(** A status set on an open response is the status read from then on,
    through any further calls other than [setStatus]: [send] and [json]
    store 200 only when no status was set. *)
Theorem explicit_status_is_kept (r : ResponseState) (code : Z) (cs : list call) :
  sent r = false →
  Forall (λ c, is_setStatus c = false) cs →
  status (do_calls (CallSetStatus code :: cs) r) = code.
Proof.
  intros Hs Hcs. simpl. rewrite setStatus_open by done. simpl.
  assert (H0 : r_status (set_r_status (Some code) r) = Some code) by done.
  revert H0. generalize (set_r_status (Some code) r).
  induction Hcs as [|c cs Hc _ IH]; intros r0 Hr0.
  - unfold status. simpl. by rewrite Hr0.
  - simpl. apply IH. by apply do_call_open_status.
Qed.

Lemma explicit_status_is_kept_witness :
  status (do_calls [CallSetStatus 201; CallSetHeader "x-a" "1"; CallJson (VStr "made");
                    CallSend (VStr "again")] createResponse) = 201.
Proof.
  apply (explicit_status_is_kept createResponse 201
           [CallSetHeader "x-a" "1"; CallJson (VStr "made"); CallSend (VStr "again")]).
  - reflexivity.
  - repeat constructor.
Defined.

(** On an open response [json] sets [content-type] to [application/json]
    whatever it was, leaves every other header (header names are compared
    as they are written) and the status as they were, stores the data and
    finalizes the response. *)
Theorem json_overwrites_content_type (r : ResponseState) (data : jsval) :
  sent r = false →
  ∃ r', json data r = (Ok tt, r') ∧
        headers r' !! "content-type" = Some "application/json" ∧
        (∀ name, name ≠ "content-type" → headers r' !! name = headers r !! name) ∧
        status r' = status r ∧ body r' = data ∧
        sent r' = true ∧ finished r' = true.
Proof.
  intros Hs. rewrite json_open by done. eexists. split; [done|].
  unfold headers, status, body, sent, finished. simpl.
  split; [by rewrite lookup_insert_eq|].
  split; [|done]. intros name Hname. by rewrite lookup_insert_ne.
Qed.

Lemma json_overwrites_content_type_witness :
  let r := (setHeader "content-type" "text/plain";;
            setHeader "Content-Type" "text/html") createResponse in
  ∃ r', json (VStr "x") r.2 = (Ok tt, r') ∧
        headers r' !! "content-type" = Some "application/json" ∧
        (∀ name, name ≠ "content-type" → headers r' !! name = headers r.2 !! name) ∧
        status r' = status r.2 ∧ body r' = VStr "x" ∧
        sent r' = true ∧ finished r' = true.
Proof.
  apply (json_overwrites_content_type
           ((setHeader "content-type" "text/plain";;
             setHeader "Content-Type" "text/html") createResponse).2 (VStr "x")).
  reflexivity.
Defined.

(** After a [send] or a [json] on an open response each further call is
    rejected with the error of the guard it meets first: [setStatus] with
    "Cannot set status...", [setHeader] and also [json] with "Cannot set
    headers...", [send] with "Response has already been sent". *)
Theorem second_call_errors (r : ResponseState) (data : jsval) (c : call) :
  sent r = false →
  do_call c (send data r).2 = (Throw (rejection c), (send data r).2) ∧
  do_call c (json data r).2 = (Throw (rejection c), (json data r).2).
Proof.
  intros Hs. rewrite send_open, json_open by done. simpl.
  split; by apply do_call_sent.
Qed.

Lemma second_call_errors_witness :
  do_call (CallJson (VStr "b")) (send (VStr "a") createResponse).2 =
    (Throw (Error "Cannot set headers after response has been sent"),
     (send (VStr "a") createResponse).2) ∧
  do_call (CallJson (VStr "b")) (json (VStr "a") createResponse).2 =
    (Throw (Error "Cannot set headers after response has been sent"),
     (json (VStr "a") createResponse).2).
Proof.
  apply (second_call_errors createResponse (VStr "a") (CallJson (VStr "b"))).
  reflexivity.
Defined.

(** ** Invariants of the response through a dispatch *)

Section ResponseInvariant.
Variable J : ResponseState → Prop.
Hypothesis J_call : ∀ c r, J r → J (do_call c r).2.

Lemma keeps_bind {X A B} (m : M (X * ResponseState) A) (k : A → M _ B) :
  keeps_response J m → (∀ a, keeps_response J (k a)) → keeps_response J (bind m k).
Proof.
  intros Hm Hk x r HJ. unfold bind. specialize (Hm x r HJ).
  destruct (m (x, r)) as [[a|e|] [x' r']]; simpl in *; [|done..].
  by apply Hk.
Qed.

Lemma keeps_try_catch {X A} (m : M (X * ResponseState) A) h :
  keeps_response J m → (∀ e, keeps_response J (h e)) →
  keeps_response J (try_catch m h).
Proof.
  intros Hm Hh x r HJ. unfold try_catch. specialize (Hm x r HJ).
  destruct (m (x, r)) as [[a|e|] [x' r']]; simpl in *; [done| |done].
  by apply Hh.
Qed.

Lemma keeps_on_response {X} (c : call) :
  keeps_response (X := X) J (on_response (do_call c)).
Proof.
  intros x r HJ. unfold on_response. simpl.
  specialize (J_call c r HJ). by destruct (do_call c r).
Qed.

Lemma keeps_exec {X K} (nxt : K → M (X * ResponseState) unit) (p : prog K) :
  (∀ c, keeps_response J (nxt c)) → keeps_response J (exec nxt p).
Proof.
  intros Hn.
  induction p as [|e|k IH|code k IH|name value k IH|data k IH|data k IH
                 |c k IH|p IHp h IHh k IHk]; simpl.
  - by intros x r HJ.
  - by intros x r HJ.
  - intros x r HJ. by apply (IH (view r)).
  - apply keeps_bind; [apply (keeps_on_response (CallSetStatus code))|done].
  - apply keeps_bind; [apply (keeps_on_response (CallSetHeader name value))|done].
  - apply keeps_bind; [apply (keeps_on_response (CallSend data))|done].
  - apply keeps_bind; [apply (keeps_on_response (CallJson data))|done].
  - apply keeps_bind; [apply Hn|done].
  - apply keeps_bind; [|done]. by apply keeps_try_catch.
Qed.

Lemma keeps_next allMiddlewares r request fuel :
  keeps_response J (next allMiddlewares r request fuel tt).
Proof.
  induction fuel as [|fuel IH]; intros x r0 HJ; [done|].
  rewrite next_unfold. case_bool_decide.
  - apply (keeps_exec no_next (handler r request)); [intros []|done].
  - destruct (allMiddlewares !! index x) as [m|]; [|done].
    apply keeps_try_catch; [| |done].
    + destruct (before m) as [hook|]; [|done].
      apply keeps_bind; [by intros ? ? ?|].
      intros _. apply keeps_exec. by intros [].
    + intros e. destruct (onError m) as [hook|]; [|by intros ? ? ?].
      apply keeps_bind; [by intros ? ? ?|].
      intros _. apply keeps_exec. by intros [].
Qed.

Lemma keeps_executeMiddlewareChain s r request tr response tr' :
  J createResponse →
  executeMiddlewareChain s r request tr = (Ok response, tr') → J response.
Proof.
  intros H0. unfold executeMiddlewareChain.
  pose proof (keeps_next (_globalMiddlewares s ++ default [] (middlewares r)) r request
                (S (length (_globalMiddlewares s ++ default [] (middlewares r))))
                {| index := 0; trace := tr |} createResponse H0) as HJ.
  destruct (next _ _ _ _ _ _) as [[[]|e|] [x' r']]; simpl in *; [|done..].
  by intros [= <- _].
Qed.

Lemma keeps_handleError_from error request ms :
  J createResponse →
  (∀ code message response, createErrorResponse code message = Ok response → J response) →
  ∀ i tr response tr',
    handleError_from i ms error request tr = (Ok response, tr') → J response.
Proof.
  intros H0 Herr. induction ms as [|m ms IH]; intros i tr response tr'; simpl.
  - intros [= <- _]. by apply (Herr 500 "Internal Server Error").
  - destruct (onError m) as [hook|]; [|apply IH].
    pose proof (keeps_exec (X := list event) noop (hook error request)
                  ltac:(by intros [] ? ? ?) (tr ++ [InvokeOnError i]) createResponse H0)
      as HJ.
    destruct (exec noop (hook error request) _) as [[[]|e|] [tr1 r1]]; simpl in *.
    + by intros [= <- _].
    + apply IH.
    + done.
Qed.

Lemma keeps_processRequest s request tr response tr' :
  J createResponse →
  (∀ code message response, createErrorResponse code message = Ok response → J response) →
  processRequest s request tr = (Ok response, tr') → J response.
Proof.
  intros H0 Herr. unfold processRequest, try_catch.
  destruct (findRoute s (req_method request) (req_path request)) as [r|].
  - destruct (executeMiddlewareChain s r request tr) as [[response0|e|] tr0] eqn:Hchain.
    + intros [= <- _]. by eapply keeps_executeMiddlewareChain.
    + by apply keeps_handleError_from.
    + done.
  - destruct (createErrorResponse 404 "Not Found") as [response0|e|] eqn:H404.
    + intros [= <- _]. by eapply Herr.
    + by apply keeps_handleError_from.
    + done.
Qed.
End ResponseInvariant.

Lemma response_wf_call (c : call) (r : ResponseState) :
  response_wf r → response_wf (do_call c r).2.
Proof.
  intros (Hf & Hb & Hst). destruct (r_sent r) eqn:Hs.
  { rewrite do_call_sent by done. simpl. unfold response_wf. rewrite Hs.
    by split_and!. }
  destruct c; simpl.
  - rewrite setStatus_open by done. unfold response_wf. simpl. rewrite Hs.
    split_and!; [done|auto|done].
  - rewrite setHeader_open by done. case_bool_decide.
    { unfold response_wf. simpl. rewrite Hs. by split_and!. }
    unfold response_wf. simpl. rewrite Hs.
    split_and!; [done|auto|done].
  - rewrite send_open by done. unfold response_wf. simpl.
    split_and!; [done|done|by eexists].
  - rewrite json_open by done. unfold response_wf. simpl.
    split_and!; [done|done|by eexists].
Qed.

(** The response [processRequest] returns, whatever the middleware and the
    handler did with it: [finished] equals [sent]; while it is not sent it
    has no body; once sent it has a stored status. *)
Theorem dispatched_response_is_well_formed
    (s : Server) (request : IRequest) (tr tr' : list event) (response : ResponseState) :
  processRequest s request tr = (Ok response, tr') →
  finished response = sent response ∧
  (sent response = false → body response = VUndefined) ∧
  (sent response = true → is_Some (r_status response)).
Proof.
  apply (keeps_processRequest response_wf response_wf_call).
  - by repeat split.
  - intros code message r. rewrite createErrorResponse_eq. intros [= <-].
    repeat split; [done|]. by eexists.
Qed.

Lemma dispatched_response_is_well_formed_witness :
  let response := {| r_status := Some 200; r_headers := ∅; r_body := VStr "Root";
                     r_sent := true; r_finished := true |} in
  finished response = sent response ∧
  (sent response = false → body response = VUndefined) ∧
  (sent response = true → is_Some (r_status response)).
Proof.
  apply (dispatched_response_is_well_formed
           (sample_server [pass_through; pass_through]) (sample_request GET "/") []
           [InvokeBefore 0; InvokeBefore 1; InvokeBefore 2; InvokeHandler]%nat).
  by vm_compute.
Defined.

(** ** The server facade: registration and life cycle *)

Lemma find_app_Some {A} (f : A → bool) (l l' : list A) (x : A) :
  List.find f l = Some x → List.find f (l ++ l') = Some x.
Proof.
  induction l as [|a l IH]; [done|]. simpl. by destruct (f a).
Qed.

Lemma find_app_None {A} (f : A → bool) (l l' : list A) :
  List.find f l = None → List.find f (l ++ l') = List.find f l'.
Proof.
  induction l as [|a l IH]; [done|]. simpl. by destruct (f a).
Qed.

Lemma server_eta (s : Server) :
  {| _engine := _engine s; _globalMiddlewares := _globalMiddlewares s;
     _routes := _routes s; _isRunning := _isRunning s |} = s.
Proof. by destruct s. Qed.

Lemma do_server_call_appends (c : server_call) (s : Server) :
  (∃ added, _routes (do_server_call c s).2 = _routes s ++ added) ∧
  (∃ added, _globalMiddlewares (do_server_call c s).2 = _globalMiddlewares s ++ added).
Proof.
  assert (Hsame : ∀ s' : Server,
            _routes s' = _routes s → _globalMiddlewares s' = _globalMiddlewares s →
            (∃ added, _routes s' = _routes s ++ added) ∧
            (∃ added, _globalMiddlewares s' = _globalMiddlewares s ++ added)).
  { intros s' -> ->. split; exists []; by rewrite app_nil_r. }
  destruct c as [m|i|e|port|]; simpl.
  - split; [exists []; by rewrite app_nil_r|by eexists].
  - unfold route, bind, get. destruct (_isRunning s); [by apply Hsame|].
    destruct i; simpl; (split; [by eexists|exists []; by rewrite app_nil_r]).
  - unfold setEngine, bind, get. destruct (_isRunning s); by apply Hsame.
  - unfold start, bind, get, try_catch. destruct (_isRunning s); [by apply Hsame|].
    simpl. destruct (listen (_engine s) port) as [[]| |]; by apply Hsame.
  - unfold stop, bind, get, try_catch. destruct (_isRunning s); [|by apply Hsame].
    simpl. destruct (close (_engine s)) as [[]| |]; by apply Hsame.
Qed.

(** Registering a single route on a server that is not running, and
    whose table has no route with an empty path, makes it the answer for
    its method and path, an empty path standing for "/", unless an earlier
    route already answers them, which then keeps answering.  (While no
    route of the table has an empty path, the assignment [route.path = '/']
    of [route] reaches no object of the table.) *)
Theorem route_then_findRoute (s : Server) (r : IRoute) :
  isRunning s = false →
  Forall (λ r', path r' ≠ "") (_routes s) →
  ∃ s', route (OneRoute r) s = (Ok tt, s') ∧
        path (normalizePath r) = (if bool_decide (path r = "") then "/" else path r) ∧
        findRoute s' (method r) (path (normalizePath r)) =
          match findRoute s (method r) (path (normalizePath r)) with
          | Some earlier => Some earlier
          | None => Some (normalizePath r)
          end.
Proof.
  unfold isRunning. intros Hrun _. unfold route, bind, get. rewrite Hrun. simpl.
  eexists. split; [done|]. split.
  { unfold normalizePath. by case_bool_decide. }
  unfold findRoute. simpl.
  destruct (List.find _ (_routes s)) as [earlier|] eqn:Hfind.
  - by apply find_app_Some.
  - rewrite find_app_None by done. simpl.
    replace (method (normalizePath r)) with (method r)
      by (unfold normalizePath; by case_bool_decide).
    unfold pathMatches. by rewrite !bool_decide_eq_true_2.
Qed.

Lemma route_then_findRoute_witness :
  ∃ s', route (OneRoute (set_path "" root_route)) (newServer sample_engine) = (Ok tt, s') ∧
        path (normalizePath (set_path "" root_route)) = "/" ∧
        findRoute s' GET "/" = Some root_route.
Proof.
  destruct (route_then_findRoute (newServer sample_engine) (set_path "" root_route))
    as (s' & Hroute & Hpath & Hfind); [reflexivity|constructor|].
  exists s'. split; [exact Hroute|]. split; [exact Hpath|]. exact Hfind.
Defined.

(** When the engine fails to listen, [start] fails with the engine's
    error and the server is exactly as it was, not running: it can be
    started again. *)
Theorem failed_start_leaves_server_stopped (s : Server) (port : Z) (e : jsval) :
  isRunning s = false →
  listen (_engine s) port = Throw e →
  start port s = (Throw e, s).
Proof.
  unfold isRunning. intros Hrun Hlisten.
  unfold start, bind, get, try_catch, modify, throw. rewrite Hrun. simpl.
  rewrite Hlisten. unfold set_isRunning. simpl. rewrite <- Hrun. by rewrite server_eta.
Qed.

(** A [start] followed by a [stop], both successful, gives back the
    server as it was, with its routes, middleware and engine. *)
Theorem start_then_stop_restores (s : Server) (port : Z) :
  isRunning s = false →
  listen (_engine s) port = Ok tt →
  close (_engine s) = Ok tt →
  (start port;; stop) s = (Ok tt, s).
Proof.
  unfold isRunning. intros Hrun Hlisten Hclose.
  unfold start, stop, bind, get, try_catch, modify. rewrite Hrun. simpl.
  rewrite Hlisten. simpl. rewrite Hclose. unfold set_isRunning. simpl.
  rewrite <- Hrun. by rewrite server_eta.
Qed.

(** [stop] on a server that is not running returns without calling the
    engine; on a running server whose engine fails to close it fails with
    the engine's error and the server stays running. *)
Theorem stop_edge_cases (s : Server) :
  (isRunning s = false → stop s = (Ok tt, s)) ∧
  (∀ e, isRunning s = true → close (_engine s) = Throw e → stop s = (Throw e, s)).
Proof.
  unfold isRunning. split.
  - intros Hrun. unfold stop, bind, get. by rewrite Hrun.
  - intros e Hrun Hclose. unfold stop, bind, get, try_catch. rewrite Hrun. simpl.
    by rewrite Hclose.
Qed.

(** While the server is running, [start] and [setEngine] throw and leave
    it unchanged. *)
Lemma running_server_rejects_start_and_setEngine
    (s : Server) (port : Z) (engine : IEngine) :
  isRunning s = true →
  start port s = (Throw (Error "Server is already running"), s) ∧
  setEngine engine s =
    (Throw (Error "Cannot change engine while server is running"), s).
Proof.
  unfold isRunning. intros Hrun.
  unfold start, setEngine, bind, get. by rewrite Hrun.
Qed.

(** ** The [RouteGroup] class *)

Section Strings.
Local Open Scope nat_scope.

Lemma append_nil (s : string) : String.append "" s = s.
Proof. reflexivity. Qed.

Lemma append_cons (c : ascii) (a b : string) :
  String.append (String c a) b = String c (String.append a b).
Proof. reflexivity. Qed.

Lemma append_assoc_string (a b c : string) :
  String.append (String.append a b) c = String.append a (String.append b c).
Proof.
  induction a as [|x a IH]; [done|]. rewrite !append_cons. by rewrite IH.
Qed.

Lemma append_inv_head (a b c : string) :
  String.append a b = String.append a c → b = c.
Proof.
  induction a as [|x a IH]; [done|]. rewrite !append_cons.
  intros [= H]. by apply IH.
Qed.

Lemma append_not_empty (a b : string) :
  startsWith_slash a = true → String.append a b ≠ "".
Proof. by destruct a. Qed.

Lemma endsWith_slash_inv (s : string) :
  endsWith_slash s = true →
  s = String.append (slice_0_minus1 s) "/".
Proof.
  induction s as [|c s IH]; [done|]. destruct s as [|c' s'].
  - simpl. intros H. by apply bool_decide_eq_true in H as ->.
  - intros H. change (endsWith_slash (String c' s') = true) in H.
    change (String c (String c' s') =
            String c (String.append (slice_0_minus1 (String c' s')) "/")).
    f_equal. by apply IH.
Qed.

Lemma startsWith_slash_slice (s : string) :
  startsWith_slash s = true → 1 < String.length s →
  startsWith_slash (slice_0_minus1 s) = true.
Proof. destruct s as [|c [|c' s']]; simpl; [done|lia|done]. Qed.

Lemma startsWith_slash_short (s : string) :
  startsWith_slash s = true → ¬ 1 < String.length s → s = "/".
Proof.
  destruct s as [|c [|c' s']]; simpl; [done| |lia].
  intros H _. by apply bool_decide_eq_true in H as ->.
Qed.

Lemma add_slash_starts (p : string) :
  startsWith_slash (if negb (startsWith_slash p) then String.append "/" p else p) = true.
Proof. by destruct (startsWith_slash p) eqn:H. Qed.

Lemma normalizePrefix_cases (p : string) :
  ∃ p1, p1 = (if negb (startsWith_slash p) then String.append "/" p else p) ∧
        startsWith_slash p1 = true ∧
        ((1 < String.length p1 ∧ endsWith_slash p1 = true ∧
          RouteGroup_normalizePrefix p = slice_0_minus1 p1) ∨
         ((p1 = "/" ∨ endsWith_slash p1 = false) ∧
          RouteGroup_normalizePrefix p = p1)).
Proof.
  eexists. split; [done|]. split; [apply add_slash_starts|].
  unfold RouteGroup_normalizePrefix.
  pose proof (add_slash_starts p) as Hs.
  set (p1 := if negb (startsWith_slash p) then String.append "/" p else p) in *.
  case_bool_decide as Hlen; simpl.
  - destruct (endsWith_slash p1) eqn:He; [by left|]. right. by split; [right|].
  - right. split; [left|done]. by apply startsWith_slash_short.
Qed.
End Strings.

Lemma normalizePrefix_starts (prefix : string) :
  startsWith_slash (RouteGroup_normalizePrefix prefix) = true.
Proof.
  destruct (normalizePrefix_cases prefix) as (p1 & _ & Hs & [(Hl & _ & ->)|(_ & ->)]).
  - by apply startsWith_slash_slice.
  - done.
Qed.

(** The normalized prefix of a group always starts with "/"; the empty
    prefix becomes "/". *)
Theorem normalizePrefix_starts_with_slash (prefix : string) :
  startsWith_slash (RouteGroup_normalizePrefix prefix) = true ∧
  RouteGroup_normalizePrefix "" = "/".
Proof. split; [apply normalizePrefix_starts|done]. Qed.

Lemma normalizePrefix_shape (prefix : string) :
  (∀ q, prefix ≠ String.append q "//") →
  RouteGroup_normalizePrefix prefix = "/" ∨
  endsWith_slash (RouteGroup_normalizePrefix prefix) = false.
Proof.
  intros Hno.
  destruct (normalizePrefix_cases prefix) as (p1 & Hp1 & Hs & [(Hl & He & ->)|(H & ->)]);
    [|done].
  right. destruct (endsWith_slash (slice_0_minus1 p1)) eqn:He2; [|done].
  exfalso. apply endsWith_slash_inv in He, He2.
  rewrite He2, append_assoc_string in He.
  change (String.append "/" "/") with "//" in He.
  destruct (startsWith_slash prefix) eqn:Hsp; simpl in Hp1.
  - subst p1. by eapply Hno.
  - rewrite Hp1 in He at 1.
    destruct (slice_0_minus1 (slice_0_minus1 p1)) as [|c q].
    + rewrite append_nil in He. change (String.append "/" prefix) with (String "/" prefix) in He.
      injection He as ->. done.
    + rewrite append_cons in He.
      change (String.append "/" prefix) with (String "/" prefix) in He.
      injection He as _ He. by eapply Hno.
Qed.

(** [normalizePrefix] removes one trailing slash, not more.  For a prefix
    that does not end in two slashes the result is "/" or has no trailing
    slash, and normalizing it again changes nothing; a prefix such as "a//"
    is normalized to "/a/", which still ends in a slash and normalizes
    further to "/a". *)
Theorem normalizePrefix_strips_one_slash (prefix : string) :
  ((∀ q, prefix ≠ String.append q "//") →
   (RouteGroup_normalizePrefix prefix = "/" ∨
    endsWith_slash (RouteGroup_normalizePrefix prefix) = false) ∧
   RouteGroup_normalizePrefix (RouteGroup_normalizePrefix prefix) =
     RouteGroup_normalizePrefix prefix) ∧
  RouteGroup_normalizePrefix "a//" = "/a/" ∧
  RouteGroup_normalizePrefix "/a/" = "/a".
Proof.
  split; [|done]. intros Hno.
  pose proof (normalizePrefix_shape prefix Hno) as Hshape.
  split; [done|].
  pose proof (normalizePrefix_starts prefix) as Hs.
  destruct Hshape as [->|He]; [done|].
  unfold RouteGroup_normalizePrefix at 1. rewrite Hs. simpl.
  rewrite He. by rewrite andb_false_r.
Qed.

Section RouteGroupFacts.
Local Open Scope nat_scope.

(** The key of a route determines its method and its path. *)
Lemma routeKey_inj (prefix : string) (r1 r2 : IRoute) :
  routeKey prefix r1 = routeKey prefix r2 ↔
  method r1 = method r2 ∧ path r1 = path r2.
Proof.
  unfold routeKey. split.
  - intros H.
    assert (Hm : method r1 = method r2 ∧
                 String.append prefix (path r1) = String.append prefix (path r2)).
    { destruct (method r1), (method r2); unfold method_name in H;
        rewrite ?append_cons, ?append_nil in H; simplify_eq;
        (split; [reflexivity|congruence]). }
    destruct Hm as [Hm Hp]. split; [done|]. by eapply append_inv_head.
  - by intros [-> ->].
Qed.

Lemma routeKey_elem_of (prefix : string) (r : IRoute) (rs : list IRoute) :
  routeKey prefix r ∈ (routeKey prefix <$> rs) ↔
  method_and_path r ∈ (method_and_path <$> rs).
Proof.
  rewrite !list_elem_of_fmap. split; intros (r' & H & Hin); exists r'; split; try done.
  - apply routeKey_inj in H as [? ?]. unfold method_and_path. congruence.
  - apply routeKey_inj. unfold method_and_path in H. by simplify_eq.
Qed.

Lemma routeKey_NoDup (prefix : string) (rs : list IRoute) :
  NoDup (routeKey prefix <$> rs) ↔ NoDup (method_and_path <$> rs).
Proof.
  induction rs as [|r rs IH]; simpl; [by split; constructor|].
  rewrite !NoDup_cons, IH, routeKey_elem_of. done.
Qed.

Lemma validateRoutes_from_Ok (prefix : string) (rs : list IRoute) :
  ∀ routeKeys,
    validateRoutes_from prefix routeKeys rs = Ok tt ↔
    NoDup (routeKey prefix <$> rs) ∧
    ∀ k, k ∈ (routeKey prefix <$> rs) → k ∉ routeKeys.
Proof.
  induction rs as [|r rs IH]; intros routeKeys; simpl.
  - split; [|done]. intros _. split; [constructor|]. intros k Hk.
    by apply elem_of_nil in Hk.
  - case_bool_decide as Hin.
    + split; [done|]. intros [_ H]. exfalso. apply (H (routeKey prefix r)); [|done].
      apply elem_of_cons. by left.
    + rewrite IH, NoDup_cons. split.
      * intros [Hnd H]. split.
        -- split; [|done]. intros Hr. apply (H _ Hr).
           apply elem_of_union. left. by apply elem_of_singleton.
        -- intros k Hk. apply elem_of_cons in Hk as [->|Hk]; [done|].
           intros Hk'. apply (H k Hk), elem_of_union. by right.
      * intros [[Hr Hnd] H]. split; [done|]. intros k Hk.
        assert (k ∉ routeKeys) by (apply H, elem_of_cons; by right).
        assert (k ≠ routeKey prefix r) by (by intros ->).
        intros [Hk'|Hk']%elem_of_union; [|done].
        by apply elem_of_singleton in Hk'.
Qed.

Lemma validateRoutes_from_result (prefix : string) (rs : list IRoute) :
  ∀ routeKeys,
    validateRoutes_from prefix routeKeys rs = Ok tt ∨
    ∃ r, r ∈ rs ∧
         validateRoutes_from prefix routeKeys rs =
           Throw (Error (String.append "Duplicate route detected: " (routeKey prefix r))).
Proof.
  induction rs as [|r rs IH]; intros routeKeys; simpl; [by left|].
  case_bool_decide.
  - right. exists r. split; [|done]. apply elem_of_cons. by left.
  - destruct (IH ({[routeKey prefix r]} ∪ routeKeys)) as [->|(r' & Hin & ->)];
      [by left|].
    right. exists r'. split; [|done]. apply elem_of_cons. by right.
Qed.

Lemma RouteGroup_new_Ok prefix rs ms d ts :
  NoDup (method_and_path <$> rs) →
  RouteGroup_new prefix rs ms d ts =
    Ok {| rg_prefix := RouteGroup_normalizePrefix prefix; rg_routes := rs;
          rg_middlewares := default [] ms; rg_description := d; rg_tags := ts |}.
Proof.
  intros Hnd. unfold RouteGroup_new, RouteGroup_validateRoutes. simpl.
  rewrite (proj2 (validateRoutes_from_Ok _ rs ∅)); [done|].
  split; [by apply routeKey_NoDup|]. intros k _. apply not_elem_of_empty.
Qed.

Lemma RouteGroup_new_inv prefix rs ms d ts g :
  RouteGroup_new prefix rs ms d ts = Ok g →
  NoDup (method_and_path <$> rs) ∧
  g = {| rg_prefix := RouteGroup_normalizePrefix prefix; rg_routes := rs;
         rg_middlewares := default [] ms; rg_description := d; rg_tags := ts |}.
Proof.
  unfold RouteGroup_new, RouteGroup_validateRoutes. simpl.
  destruct (validateRoutes_from _ ∅ rs) as [[]|e|] eqn:Hv; [|done..].
  intros [= <-]. split; [|done].
  apply validateRoutes_from_Ok in Hv as [Hnd _]. by eapply routeKey_NoDup.
Qed.

Lemma constructed_inv (g : RouteGroup) :
  constructed g →
  NoDup (method_and_path <$> rg_routes g) ∧ startsWith_slash (rg_prefix g) = true.
Proof.
  intros (prefix & rs & ms & d & ts & H).
  apply RouteGroup_new_inv in H as [Hnd ->]. simpl.
  split; [done|apply normalizePrefix_starts].
Qed.
End RouteGroupFacts.

(** The constructor of [RouteGroup] succeeds exactly when no two of the
    routes share method and path; otherwise it throws "Duplicate route
    detected" for the key of one of the routes. *)
Theorem RouteGroup_new_rejects_duplicates
    (prefix : string) (rs : list IRoute) (ms : option (list IMiddleware))
    (d : option string) (ts : option (list string)) :
  (NoDup (method_and_path <$> rs) →
   RouteGroup_new prefix rs ms d ts =
     Ok {| rg_prefix := RouteGroup_normalizePrefix prefix; rg_routes := rs;
           rg_middlewares := default [] ms; rg_description := d; rg_tags := ts |}) ∧
  (¬ NoDup (method_and_path <$> rs) →
   ∃ r, r ∈ rs ∧
        RouteGroup_new prefix rs ms d ts =
          Throw (Error (String.append "Duplicate route detected: "
                          (routeKey (RouteGroup_normalizePrefix prefix) r)))).
Proof.
  split; [apply RouteGroup_new_Ok|]. intros Hdup.
  unfold RouteGroup_new, RouteGroup_validateRoutes. simpl.
  destruct (validateRoutes_from_result (RouteGroup_normalizePrefix prefix) rs ∅)
    as [Hok|(r & Hin & ->)]; [|by exists r].
  exfalso. apply Hdup. apply validateRoutes_from_Ok in Hok as [Hnd _].
  by eapply routeKey_NoDup.
Qed.

Lemma RouteGroup_new_rejects_duplicates_witness :
  (∃ g, RouteGroup_new "api/" [root_route; set_path "/x" root_route] None None None = Ok g ∧
        rg_prefix g = "/api") ∧
  ∃ r, RouteGroup_new "api/" [set_path "/x" root_route; set_path "/x" root_route]
         None None None =
       Throw (Error (String.append "Duplicate route detected: " (routeKey "/api" r))).
Proof.
  split.
  - eexists. split.
    + apply (RouteGroup_new_rejects_duplicates "api/"
               [root_route; set_path "/x" root_route] None None None).
      apply (bool_decide_unpack _). by vm_compute.
    + reflexivity.
  - destruct (proj2 (RouteGroup_new_rejects_duplicates "api/"
                [set_path "/x" root_route; set_path "/x" root_route] None None None))
      as (r & _ & H).
    + apply (bool_decide_unpack _). by vm_compute.
    + by exists r.
Defined.

Lemma find_key_None (prefix : string) (r : IRoute) (rs : list IRoute) :
  List.find (λ r', bool_decide (routeKey prefix r' = routeKey prefix r)) rs = None ↔
  method_and_path r ∉ (method_and_path <$> rs).
Proof.
  rewrite find_none, <- routeKey_elem_of, list_elem_of_fmap, Forall_forall. split.
  - intros H (r' & Hk & Hin). specialize (H r' Hin).
    by rewrite bool_decide_eq_false in H.
  - intros H r' Hin. apply bool_decide_eq_false. intros Hk. apply H. by exists r'.
Qed.

(** [addRoute] on a group built by the constructor: when a route of the
    group has the method and path of the new one it throws "Route already
    exists"; otherwise it returns a group with the new route added last,
    the same middleware, and the prefix normalized once more. *)
Theorem RouteGroup_addRoute_outcome (g : RouteGroup) (r : IRoute) :
  constructed g →
  (method_and_path r ∈ (method_and_path <$> rg_routes g) →
   RouteGroup_addRoute r g =
     Throw (Error (String.append "Route already exists: " (routeKey (rg_prefix g) r)))) ∧
  (method_and_path r ∉ (method_and_path <$> rg_routes g) →
   RouteGroup_addRoute r g =
     Ok {| rg_prefix := RouteGroup_normalizePrefix (rg_prefix g);
           rg_routes := rg_routes g ++ [r];
           rg_middlewares := rg_middlewares g;
           rg_description := rg_description g; rg_tags := rg_tags g |}).
Proof.
  intros Hg. apply constructed_inv in Hg as [Hnd _]. unfold RouteGroup_addRoute. split.
  - intros Hin.
    destruct (List.find _ (rg_routes g)) as [r'|] eqn:Hfind; [done|].
    by apply find_key_None in Hfind.
  - intros Hnotin. rewrite (proj2 (find_key_None _ r (rg_routes g)) Hnotin).
    rewrite RouteGroup_new_Ok; [done|].
    rewrite fmap_app. apply NoDup_app. split; [done|]. split.
    + intros x Hx Hx'. apply list_elem_of_singleton in Hx'. by subst.
    + apply NoDup_singleton.
Qed.

(** [use] on a group built by the constructor never throws: it returns a
    group with the same routes and the middleware added last.  Its prefix is
    the old one normalized once more, which is the old one when the prefix
    the group was built from did not end in two slashes. *)
Theorem RouteGroup_use_outcome
    (prefix : string) (rs : list IRoute) (ms : option (list IMiddleware))
    (d : option string) (ts : option (list string)) (g : RouteGroup) (m : IMiddleware) :
  RouteGroup_new prefix rs ms d ts = Ok g →
  RouteGroup_use m g =
    Ok {| rg_prefix := RouteGroup_normalizePrefix (rg_prefix g);
          rg_routes := rg_routes g;
          rg_middlewares := rg_middlewares g ++ [m];
          rg_description := rg_description g; rg_tags := rg_tags g |} ∧
  ((∀ q, prefix ≠ String.append q "//") →
   RouteGroup_normalizePrefix (rg_prefix g) = rg_prefix g).
Proof.
  intros Hnew. apply RouteGroup_new_inv in Hnew as [Hnd ->]. simpl. split.
  - unfold RouteGroup_use. simpl. by rewrite RouteGroup_new_Ok.
  - intros Hno.
    pose proof (normalizePrefix_starts prefix) as Hstart.
    assert (Hshape : RouteGroup_normalizePrefix prefix = "/" ∨
                     endsWith_slash (RouteGroup_normalizePrefix prefix) = false).
    { by apply normalizePrefix_shape. }
    destruct Hshape as [->|He]; [done|].
    unfold RouteGroup_normalizePrefix at 1. rewrite Hstart. simpl.
    rewrite He. by rewrite andb_false_r.
Qed.

Lemma RouteGroup_use_outcome_witness :
  ∃ g, RouteGroup_new "api/" [root_route] None None None = Ok g ∧
       RouteGroup_use pass_through g =
         Ok {| rg_prefix := "/api"; rg_routes := [root_route];
               rg_middlewares := [pass_through];
               rg_description := None; rg_tags := None |}.
Proof.
  eexists. split; [reflexivity|].
  destruct (RouteGroup_use_outcome "api/" [root_route] None None None
              {| rg_prefix := "/api"; rg_routes := [root_route]; rg_middlewares := [];
                 rg_description := None; rg_tags := None |} pass_through)
    as [Huse _]; [reflexivity|].
  exact Huse.
Defined.

(** The route [getPrefixedRoutes] makes of a route of the group. *)
Lemma getPrefixedRoutes_split (g : RouteGroup) (l1 l2 : list IRoute) (r : IRoute) :
  rg_routes g = l1 ++ r :: l2 →
  ∃ l1' l2',
    RouteGroup_getPrefixedRoutes g = l1' ++ prefixed g r :: l2' ∧
    Forall (λ r', ∃ r0, r0 ∈ l1 ∧ r' = prefixed g r0) l1'.
Proof.
  intros Hsplit. unfold RouteGroup_getPrefixedRoutes. rewrite Hsplit, map_app. simpl.
  eexists _, _. split; [done|].
  apply Forall_forall. intros r' Hin. apply list_elem_of_fmap in Hin as (r0 & -> & Hin).
  by exists r0.
Qed.

(** Registering a group built by the constructor on a server that is not
    running makes each of its routes the answer for its method and its
    path behind the group's prefix, unless an earlier route of the server
    already answers them.  The route registered carries the group's
    middleware followed by its own. *)
Theorem group_routes_are_reachable (s : Server) (g : RouteGroup) (r : IRoute) :
  constructed g →
  isRunning s = false →
  r ∈ rg_routes g →
  findRoute s (method r) (String.append (rg_prefix g) (path r)) = None →
  ∃ s', route (GroupOfRoutes (as_IRouteGroup g)) s = (Ok tt, s') ∧
        findRoute s' (method r) (String.append (rg_prefix g) (path r)) =
          Some (prefixed g r) ∧
        middlewares (prefixed g r) =
          Some (rg_middlewares g ++ default [] (middlewares r)).
Proof.
  intros Hg Hrun Hin Hnone. apply constructed_inv in Hg as [Hnd _].
  unfold isRunning in Hrun. unfold route, bind, get. rewrite Hrun. simpl.
  eexists. split; [done|]. split; [|done].
  unfold findRoute in *. simpl. rewrite find_app_None by done.
  apply list_elem_of_split in Hin as (l1 & l2 & Hsplit).
  destruct (getPrefixedRoutes_split g l1 l2 r Hsplit) as (l1' & l2' & -> & Hl1).
  apply find_first_match. exists l1', l2'. split; [done|]. split.
  - simpl. unfold pathMatches. by rewrite !bool_decide_eq_true_2.
  - eapply Forall_impl; [exact Hl1|]. intros r' (r0 & Hin0 & ->). simpl.
    apply andb_false_iff.
    destruct (decide (method r0 = method r)) as [Hm|Hm];
      [right|left; by apply bool_decide_eq_false].
    apply bool_decide_eq_false. intros Hp. apply append_inv_head in Hp.
    rewrite Hsplit, fmap_app in Hnd. apply NoDup_app in Hnd as (_ & Hdis & _).
    apply (Hdis (method_and_path r0)).
    + by apply list_elem_of_fmap_2.
    + simpl. apply elem_of_cons. left. unfold method_and_path. by rewrite Hm, Hp.
Qed.

Lemma group_routes_are_reachable_witness :
  let g := {| rg_prefix := "/api"; rg_routes := [root_route; set_path "/x" root_route];
              rg_middlewares := [failing_recovering];
              rg_description := None; rg_tags := None |} in
  ∃ s', route (GroupOfRoutes (as_IRouteGroup g)) (newServer sample_engine) = (Ok tt, s') ∧
        findRoute s' GET "/api/x" = Some (prefixed g (set_path "/x" root_route)) ∧
        middlewares (prefixed g (set_path "/x" root_route)) =
          Some [failing_recovering; pass_through].
Proof.
  intros g.
  apply (group_routes_are_reachable (newServer sample_engine) g (set_path "/x" root_route)).
  - exists "api/", [root_route; set_path "/x" root_route], (Some [failing_recovering]),
      None, None. reflexivity.
  - reflexivity.
  - apply elem_of_cons. right. apply elem_of_cons. by left.
  - reflexivity.
Defined.

Lemma do_server_call_paths (c : server_call) (s : Server) :
  class_call c →
  Forall (λ r, path r ≠ "") (_routes s) →
  Forall (λ r, path r ≠ "") (_routes (do_server_call c s).2).
Proof.
  intros Hc Hs.
  destruct c as [m|i|e|port|]; simpl.
  - done.
  - unfold route, bind, get. destruct (_isRunning s); [done|].
    destruct i as [r|rs|g]; simpl; apply Forall_app; split; try done.
    + apply Forall_singleton. unfold normalizePath. by case_bool_decide.
    + apply Forall_forall. intros r' Hin.
      apply list_elem_of_fmap in Hin as (r0 & -> & _).
      unfold normalizePath. by case_bool_decide.
    + destruct Hc as (g0 & -> & Hg0). apply constructed_inv in Hg0 as [_ Hstart].
      simpl. apply Forall_forall. intros r' Hin.
      apply list_elem_of_fmap in Hin as (r0 & -> & _). simpl.
      by apply append_not_empty.
  - unfold setEngine, bind, get. by destruct (_isRunning s).
  - unfold start, bind, get, try_catch. destruct (_isRunning s); [done|].
    simpl. by destruct (listen (_engine s) port) as [[]| |].
  - unfold stop, bind, get, try_catch. destruct (_isRunning s); [|done].
    simpl. by destruct (close (_engine s)) as [[]| |].
Qed.

(** Through any sequence of calls on a new server, with single routes,
    arrays of routes and groups built by the [RouteGroup] constructor, no
    route of the table has an empty path: single and array routes get "/"
    for it, group routes start with the group's prefix. *)
Theorem registered_paths_are_never_empty (engine : IEngine) (cs : list server_call) :
  Forall class_call cs →
  Forall (λ r, path r ≠ "") (_routes (do_server_calls cs (newServer engine))).
Proof.
  intros Hcs.
  assert (H0 : Forall (λ r, path r ≠ "") (_routes (newServer engine))) by constructor.
  revert H0. generalize (newServer engine).
  induction Hcs as [|c cs Hc _ IH]; intros s Hs; [done|].
  simpl. apply IH. by apply do_server_call_paths.
Qed.

Lemma registered_paths_are_never_empty_witness :
  Forall (λ r, path r ≠ "")
    (_routes (do_server_calls
                [CallRoute (OneRoute (set_path "" root_route)); CallStart 3000;
                 CallRoute (RouteArray [set_path "" root_route]); CallStop;
                 CallRoute (RouteArray [set_path "" root_route; root_route])]
                (newServer sample_engine))).
Proof.
  apply (registered_paths_are_never_empty sample_engine
           [CallRoute (OneRoute (set_path "" root_route)); CallStart 3000;
            CallRoute (RouteArray [set_path "" root_route]); CallStop;
            CallRoute (RouteArray [set_path "" root_route; root_route])]).
  repeat constructor.
Defined.

(** On a server whose table has no route with an empty path, whatever
    sequence of [use], [route], [setEngine], [start] and [stop] calls is
    made (groups being instances of [RouteGroup]), routes and global
    middleware are only ever appended: none is removed, replaced or
    reordered, and the table still has no route with an empty path.  So a
    lookup that found a route finds the same route ever after; a route
    registered later with the same method and path is never returned.
    (While no route of the table has an empty path, the assignment
    [route.path = '/'] of [route] reaches no object of the table.) *)
Theorem registrations_only_append (cs : list server_call) (s : Server) :
  Forall (λ r, path r ≠ "") (_routes s) →
  Forall class_call cs →
  (∃ added, _routes (do_server_calls cs s) = _routes s ++ added) ∧
  (∃ added, _globalMiddlewares (do_server_calls cs s) = _globalMiddlewares s ++ added) ∧
  Forall (λ r, path r ≠ "") (_routes (do_server_calls cs s)) ∧
  (∀ m p r, findRoute s m p = Some r → findRoute (do_server_calls cs s) m p = Some r).
Proof.
  intros Hs Hcs.
  assert (H : (∃ added, _routes (do_server_calls cs s) = _routes s ++ added) ∧
              (∃ added, _globalMiddlewares (do_server_calls cs s) =
                          _globalMiddlewares s ++ added) ∧
              Forall (λ r, path r ≠ "") (_routes (do_server_calls cs s))).
  { revert s Hs. induction Hcs as [|c cs Hc _ IH]; intros s Hs; simpl.
    - split; [|split; [|done]]; exists []; by rewrite app_nil_r.
    - destruct (IH (do_server_call c s).2) as ([a1 H1] & [a2 H2] & H3).
      { by apply do_server_call_paths. }
      destruct (do_server_call_appends c s) as [[b1 E1] [b2 E2]].
      split; [|split; [|done]].
      + exists (b1 ++ a1). by rewrite H1, E1, app_assoc.
      + exists (b2 ++ a2). by rewrite H2, E2, app_assoc. }
  destruct H as ([added Hr] & Hm & Hpaths).
  split; [by eexists|]. split; [done|]. split; [done|].
  intros m p r. unfold findRoute. rewrite Hr. apply find_app_Some.
Qed.

(** ** The order of invocations in the chain, for every behaviour *)

Section Preserves.
Context {X : Type}.
Variable I : X → Prop.

Lemma preserves_bind {A B} (m : M (X * ResponseState) A) (k : A → M _ B) :
  preserves I m → (∀ a, preserves I (k a)) → preserves I (bind m k).
Proof.
  intros Hm Hk x r HI. unfold bind. specialize (Hm x r HI).
  destruct (m (x, r)) as [[a|e|] [x' r']]; simpl in *; [|done..].
  by apply Hk.
Qed.

Lemma try_catch_keeps {A} (m : M (X * ResponseState) A) h s :
  I (m s).2.1 → (∀ e, preserves I (h e)) → I (try_catch m h s).2.1.
Proof.
  intros Hm Hh. unfold try_catch.
  destruct (m s) as [[a|e|] [x' r']]; simpl in *; [done| |done].
  by apply Hh.
Qed.

Lemma preserves_on_response {A} (m : M ResponseState A) :
  preserves I (on_response m).
Proof.
  intros x r HI. unfold on_response. simpl. by destruct (m r).
Qed.

Lemma preserves_exec {K} (nxt : K → M (X * ResponseState) unit) (p : prog K) :
  (∀ c, preserves I (nxt c)) → preserves I (exec nxt p).
Proof.
  intros Hn.
  induction p as [|e|k IH|code k IH|name value k IH|data k IH|data k IH
                 |c k IH|p IHp h IHh k IHk]; simpl.
  - by intros x r HI.
  - by intros x r HI.
  - intros x r HI. by apply (IH (view r)).
  - apply preserves_bind; [apply preserves_on_response|done].
  - apply preserves_bind; [apply preserves_on_response|done].
  - apply preserves_bind; [apply preserves_on_response|done].
  - apply preserves_bind; [apply preserves_on_response|done].
  - apply preserves_bind; [apply Hn|done].
  - apply preserves_bind; [|done]. intros x r HI.
    apply try_catch_keeps; [by apply IHp|done].
Qed.
End Preserves.

Section ChainOrder.
Local Open Scope nat_scope.
Variable allMiddlewares : list IMiddleware.
Variable the_route : IRoute.
Variable request : IRequest.
Let n := length allMiddlewares.

Lemma hooked_below_S k :
  hooked_below allMiddlewares (S k) =
    hooked_below allMiddlewares k ++
    (if has_before allMiddlewares k then [k] else []).
Proof.
  unfold hooked_below. rewrite seq_S, filter_app. simpl. f_equal.
  rewrite filter_cons, filter_nil. destruct (has_before allMiddlewares k) eqn:H.
  - by rewrite decide_True.
  - by rewrite decide_False.
Qed.

Lemma hooked_below_beyond k :
  n ≤ k → hooked_below allMiddlewares k = hooked_below allMiddlewares n.
Proof.
  induction 1 as [|k Hk IH]; [done|].
  rewrite hooked_below_S, IH. unfold has_before.
  rewrite (proj2 (lookup_ge_None allMiddlewares k)) by (fold n; lia).
  by rewrite app_nil_r.
Qed.

Lemma hooked_below_prefix k :
  hooked_below allMiddlewares k `prefix_of` hooked_below allMiddlewares n.
Proof.
  destruct (decide (n ≤ k)) as [Hk|Hk].
  - by rewrite hooked_below_beyond.
  - assert (Hle : k ≤ n) by lia. clear Hk.
    induction Hle as [|m Hm IH]; [done|].
    rewrite hooked_below_S. etrans; [exact IH|]. by apply prefix_app_r.
Qed.

Lemma befores_snoc tr ev :
  befores (tr ++ [ev]) =
    befores tr ++ (match ev with InvokeBefore j => [j] | _ => [] end).
Proof. unfold befores. rewrite omap_app. by destruct ev. Qed.

Lemma snoc_split {A} (l t1 t2 : list A) (a b : A) :
  l ++ [a] = t1 ++ b :: t2 →
  (t2 = [] ∧ a = b ∧ l = t1) ∨ (∃ t2', t2 = t2' ++ [a] ∧ l = t1 ++ b :: t2').
Proof.
  destruct t2 as [|x t2 _] using rev_ind.
  - intros H. apply app_inj_tail in H as [-> ->]. by left.
  - intros H. rewrite app_comm_cons, app_assoc in H.
    apply app_inj_tail in H as [-> ->]. right. by exists t2.
Qed.

(** Logging an event keeps the order invariant, a [before] hook being
    logged as the cursor passes its middleware and the handler once the
    cursor is at the end. *)
Lemma chain_order_log x ev i' :
  chain_order allMiddlewares x →
  match ev with
  | InvokeBefore j => j = index x ∧ i' = S j ∧ has_before allMiddlewares j = true
  | InvokeHandler => i' = index x ∧ n ≤ index x
  | InvokeOnError _ => i' = index x
  end →
  chain_order allMiddlewares {| index := i'; trace := trace x ++ [ev] |}.
Proof.
  intros [Hb Hh] Hev. split; simpl.
  - rewrite befores_snoc, Hb. destruct ev as [j|j|].
    + destruct Hev as (-> & -> & Hj). by rewrite hooked_below_S, Hj.
    + subst. by rewrite app_nil_r.
    + destruct Hev as [-> _]. by rewrite app_nil_r.
  - intros t1 t2 Hsplit. apply snoc_split in Hsplit as [(_ & -> & <-)|(t2' & _ & Hx)].
    + destruct Hev as [_ Hn]. rewrite Hb. by apply hooked_below_beyond.
    + by eapply Hh.
Qed.

Lemma chain_order_skip x :
  chain_order allMiddlewares x →
  has_before allMiddlewares (index x) = false →
  chain_order allMiddlewares {| index := S (index x); trace := trace x |}.
Proof.
  intros [Hb Hh] Hnone. split; simpl; [|done].
  by rewrite hooked_below_S, Hnone, app_nil_r.
Qed.

Lemma next_preserves_order fuel :
  preserves (chain_order allMiddlewares) (next allMiddlewares the_route request fuel tt).
Proof.
  induction fuel as [|fuel IH]; intros x r HI; [done|].
  rewrite next_unfold. fold n. case_bool_decide as Hi.
  - apply (preserves_exec (chain_order allMiddlewares) no_next
             (handler the_route request) ltac:(intros [])
             {| index := index x; trace := trace x ++ [InvokeHandler] |} r).
    by apply chain_order_log.
  - destruct (allMiddlewares !! index x) as [m|] eqn:Hm.
    2: { apply lookup_ge_None in Hm. fold n in Hm. lia. }
    apply try_catch_keeps.
    + destruct (before m) as [hook|] eqn:Hb.
      * apply (preserves_exec (chain_order allMiddlewares)
                 (next allMiddlewares the_route request fuel) (hook request)
                 ltac:(by intros [])
                 {| index := S (index x); trace := trace x ++ [InvokeBefore (index x)] |} r).
        apply chain_order_log; [done|]. split; [done|]. split; [done|].
        unfold has_before. rewrite Hm, Hb. by apply bool_decide_eq_true_2.
      * apply IH. apply chain_order_skip; [done|].
        unfold has_before. rewrite Hm, Hb. apply bool_decide_eq_false_2.
        by intros [? ?].
    + intros e. destruct (onError m) as [hook|]; [|by intros ? ? ?].
      intros x' r' HI'.
      apply (preserves_exec (chain_order allMiddlewares)
               (next allMiddlewares the_route request fuel) (hook e request)
               ltac:(by intros [])
               {| index := index x'; trace := trace x' ++ [InvokeOnError (index x)] |} r').
      by apply (chain_order_log x' (InvokeOnError (index x))).
Qed.
End ChainOrder.

Lemma executeMiddlewareChain_order (s : Server) (r : IRoute) (request : IRequest) :
  ∃ x, (executeMiddlewareChain s r request []).2 = trace x ∧
       chain_order (_globalMiddlewares s ++ default [] (middlewares r)) x.
Proof.
  rewrite executeMiddlewareChain_trace. eexists. split; [done|].
  apply next_preserves_order. by split; [|intros [|??] ? ?].
Qed.

(** Whatever the hooks and the handler do, the chain invokes [before]
    hooks in the order of the list (global middleware, then the route's) and
    each at most once: the positions invoked are an initial segment of the
    positions that have a [before] hook. *)
Theorem before_hooks_run_in_order_at_most_once
    (s : Server) (r : IRoute) (request : IRequest) :
  let allMiddlewares := _globalMiddlewares s ++ default [] (middlewares r) in
  befores (executeMiddlewareChain s r request []).2
    `prefix_of` hooked_below allMiddlewares (length allMiddlewares).
Proof.
  intros allMiddlewares.
  destruct (executeMiddlewareChain_order s r request) as (x & -> & [Hb _]).
  rewrite Hb. apply hooked_below_prefix.
Qed.

(** Whatever the hooks do, every invocation of the handler comes after
    the [before] hook of each middleware of the chain that has one. *)
Theorem handler_runs_after_every_before_hook
    (s : Server) (r : IRoute) (request : IRequest) (t1 t2 : list event) :
  let allMiddlewares := _globalMiddlewares s ++ default [] (middlewares r) in
  (executeMiddlewareChain s r request []).2 = t1 ++ InvokeHandler :: t2 →
  befores t1 = hooked_below allMiddlewares (length allMiddlewares).
Proof.
  intros allMiddlewares Hsplit.
  destruct (executeMiddlewareChain_order s r request) as (x & Hx & [_ Hh]).
  rewrite Hx in Hsplit. by eapply Hh.
Qed.

Lemma handler_runs_after_every_before_hook_witness :
  befores [InvokeBefore 0; InvokeBefore 1; InvokeOnError 0; InvokeBefore 2]%nat =
  hooked_below [resuming; failing; pass_through] 3.
Proof.
  apply (handler_runs_after_every_before_hook (sample_server [resuming; failing])
           root_route (sample_request GET "/")
           [InvokeBefore 0; InvokeBefore 1; InvokeOnError 0; InvokeBefore 2]%nat []).
  by vm_compute.
Defined.

(** ** Callbacks that do not use their continuation *)

Section EnvFacts.
Local Open Scope nat_scope.

(** A handler ends the same way whatever environment it is run in. *)
Lemma exec_handler_env {X} (p : prog Empty_set) (x : X) (r : ResponseState) :
  exec no_next p (x, r) = ((run_handler p r).1, (x, (run_handler p r).2)).
Proof.
  apply (exec_map_env (λ _ : unit, x) no_next no_next p ltac:(intros []) tt r).
Qed.

(** So does a hook that never calls its continuation, whatever the
    continuation. *)
Lemma exec_next_free_any (p : prog unit) :
  next_free p →
  ∀ (X Y : Type) (nxt : unit → M (X * ResponseState) unit)
    (nxt' : unit → M (Y * ResponseState) unit) (x : X) (y : Y) (r : ResponseState),
    exec nxt p (x, r) =
      ((exec nxt' p (y, r)).1, (x, (exec nxt' p (y, r)).2.2)).
Proof.
  induction 1 as [|e|k _ IH|code k _ IH|name value k _ IH|data k _ IH|data k _ IH
                 |p h k _ IHp _ IHh _ IHk]; intros X Y nxt nxt' x y r; simpl; try done.
  - unfold bind, on_response. simpl.
    destruct (setStatus code r) as [[[]|?|] ?]; simpl; [apply IH|done..].
  - unfold bind, on_response. simpl.
    destruct (setHeader name value r) as [[[]|?|] ?]; simpl; [apply IH|done..].
  - unfold bind, on_response. simpl.
    destruct (send data r) as [[[]|?|] ?]; simpl; [apply IH|done..].
  - unfold bind, on_response. simpl.
    destruct (json data r) as [[[]|?|] ?]; simpl; [apply IH|done..].
  - unfold bind, try_catch. rewrite (IHp X Y nxt nxt' x y r).
    destruct (exec nxt' p (y, r)) as [[[]|e|] [y1 r1]]; simpl; [apply IHk| |done].
    rewrite (IHh e X Y nxt nxt' x y1 r1).
    destruct (exec nxt' (h e) (y1, r1)) as [[[]|e'|] [y2 r2]]; simpl;
      [apply IHk|done..].
Qed.

Lemma exec_next_free {X} (nxt : unit → M (X * ResponseState) unit)
    (p : prog unit) (x : X) (r : ResponseState) :
  next_free p →
  exec nxt p (x, r) = ((run_hook p r).1, (x, (run_hook p r).2)).
Proof. intros Hp. by apply (exec_next_free_any p Hp X unit nxt noop x tt r). Qed.
End EnvFacts.

(** ** Dispatches decided by one callback *)

Lemma executeMiddlewareChain_first_answers
    (s : Server) (r : IRoute) (request : IRequest)
    (A : IMiddleware) (rest : list IMiddleware) (a : IRequest → prog unit)
    (response : ResponseState) :
  _globalMiddlewares s = A :: rest →
  before A = Some a → next_free (a request) →
  run_hook (a request) createResponse = (Ok tt, response) →
  executeMiddlewareChain s r request [] = (Ok response, [InvokeBefore 0%nat]).
Proof.
  intros Hg Hb Hfree Hrun. unfold executeMiddlewareChain. rewrite Hg.
  rewrite next_unfold. simpl. rewrite Hb, try_catch_log.
  unfold try_catch. rewrite exec_next_free by done. by rewrite Hrun.
Qed.

(** When the [before] hook of the first global middleware answers without
    calling [next] (and does not throw), the dispatch returns the response
    it wrote: no other hook and no handler is invoked. *)
Theorem first_middleware_can_answer
    (s : Server) (r : IRoute) (request : IRequest)
    (A : IMiddleware) (rest : list IMiddleware) (a : IRequest → prog unit)
    (response : ResponseState) :
  findRoute s (req_method request) (req_path request) = Some r →
  _globalMiddlewares s = A :: rest →
  before A = Some a → next_free (a request) →
  run_hook (a request) createResponse = (Ok tt, response) →
  dispatch s request = (Ok response, [InvokeBefore 0%nat]).
Proof.
  intros Hfind Hg Hb Hfree Hrun. unfold dispatch.
  rewrite (processRequest_found s request [] r Hfind). unfold try_catch.
  by rewrite (executeMiddlewareChain_first_answers s r request A rest a response).
Qed.

Lemma first_middleware_can_answer_witness :
  dispatch (server_with [root_route] [gatekeeper; failing]) (sample_request GET "/") =
    (Ok {| r_status := Some 401;
           r_headers := {["content-type" := "application/json"]};
           r_body := VObj [("error", VStr "Unauthorized")];
           r_sent := true; r_finished := true |},
     [InvokeBefore 0%nat]).
Proof.
  apply (first_middleware_can_answer (server_with [root_route] [gatekeeper; failing])
           root_route (sample_request GET "/") gatekeeper [failing]
           (λ _, SetStatus 401 (Json (VObj [("error", VStr "Unauthorized")]) Return))).
  - reflexivity.
  - reflexivity.
  - reflexivity.
  - repeat constructor.
  - reflexivity.
Defined.

Lemma executeMiddlewareChain_no_middleware
    (s : Server) (r : IRoute) (request : IRequest) :
  _globalMiddlewares s = [] → default [] (middlewares r) = [] →
  executeMiddlewareChain s r request [] =
    match run_handler (handler r request) createResponse with
    | (Ok _, response) => (Ok response, [InvokeHandler])
    | (Throw e, _) => (Throw e, [InvokeHandler])
    | (OutOfFuel, _) => (OutOfFuel, [InvokeHandler])
    end.
Proof.
  intros Hg Hr. unfold executeMiddlewareChain. rewrite Hg, Hr.
  rewrite next_unfold. simpl.
  change ((log_chain InvokeHandler;; exec no_next (handler r request))
            ({| index := 0; trace := [] |}, createResponse))
    with (exec no_next (handler r request)
            ({| index := 0; trace := [InvokeHandler] |}, createResponse)).
  rewrite exec_handler_env. unfold run_handler. simpl.
  by destruct (exec no_next (handler r request) (tt, createResponse)) as [[[]|e|] [[] r']].
Qed.

(** With no global middleware and none on the route, the dispatch is the
    handler's doing alone.  When the handler returns, the response is the
    one it left (sent or not).  When it throws, the response is the 500
    fallback and whatever the handler had written is discarded. *)
Theorem handler_only_dispatch (s : Server) (r : IRoute) (request : IRequest) :
  findRoute s (req_method request) (req_path request) = Some r →
  _globalMiddlewares s = [] →
  default [] (middlewares r) = [] →
  (∀ response,
     run_handler (handler r request) createResponse = (Ok tt, response) →
     dispatch s request = (Ok response, [InvokeHandler])) ∧
  (∀ e response,
     run_handler (handler r request) createResponse = (Throw e, response) →
     dispatch s request = (Ok internal_server_error, [InvokeHandler])).
Proof.
  intros Hfind Hg Hr. unfold dispatch.
  rewrite (processRequest_found s request [] r Hfind). unfold try_catch.
  rewrite executeMiddlewareChain_no_middleware by done.
  split.
  - by intros response ->.
  - intros e response ->. unfold handleError. by rewrite Hg.
Qed.

Lemma handler_only_dispatch_witness :
  dispatch (server_with [plain_route] []) (sample_request GET "/") =
    (Ok {| r_status := Some 200; r_headers := ∅; r_body := VStr "Root";
           r_sent := true; r_finished := true |}, [InvokeHandler]) ∧
  dispatch (server_with [throwing_route] []) (sample_request GET "/") =
    (Ok internal_server_error, [InvokeHandler]).
Proof.
  split.
  - apply (handler_only_dispatch (server_with [plain_route] []) plain_route
             (sample_request GET "/")); reflexivity.
  - apply (proj2 (handler_only_dispatch (server_with [throwing_route] []) throwing_route
                    (sample_request GET "/") eq_refl eq_refl eq_refl)
             (Error "boom")
             {| r_status := Some 201; r_headers := ∅; r_body := VUndefined;
                r_sent := false; r_finished := false |}).
    reflexivity.
Defined.

(** ** A middleware without [before] and [onError] *)

Section Transparent.
Local Open Scope nat_scope.
Variable m0 : IMiddleware.
Hypothesis no_before : before m0 = None.
Hypothesis no_onError : onError m0 = None.

Lemma try_catch_rethrow {S A} (m : M S A) (s : S) :
  try_catch m (λ e, throw e) s = m s.
Proof. unfold try_catch, throw. by destruct (m s) as [[?|?|] ?]. Qed.

Lemma try_catch_log_bind ev (m : M (ChainEnv * ResponseState) unit) x r :
  (log_chain ev;; m) (x, r) =
    m ({| index := index x; trace := trace x ++ [ev] |}, r).
Proof. reflexivity. Qed.

Lemma shift_env_log x ev :
  shift_env {| index := index x; trace := trace x ++ [ev] |} =
  {| index := index (shift_env x); trace := trace (shift_env x) ++ [shift_event ev] |}.
Proof. unfold shift_env. simpl. by rewrite fmap_app. Qed.

Lemma log_exec_shift {K} ev (p : prog K)
    (nxt nxt' : K → M (ChainEnv * ResponseState) unit) x r0 :
  (∀ c x r, nxt' c (shift_env x, r) = map_env shift_env (nxt c (x, r))) →
  (log_chain (shift_event ev);; exec nxt' p) (shift_env x, r0) =
    map_env shift_env ((log_chain ev;; exec nxt p) (x, r0)).
Proof.
  intros Hn. rewrite !try_catch_log_bind, <- shift_env_log.
  by apply (exec_map_env shift_env).
Qed.

(** The chain over [m0 :: allMiddlewares] with the cursor one further runs
    as the chain over [allMiddlewares]. *)
Lemma next_shift allMiddlewares r request fuel :
  ∀ u x r0,
    next (m0 :: allMiddlewares) r request fuel u (shift_env x, r0) =
      map_env shift_env (next allMiddlewares r request fuel u (x, r0)).
Proof.
  induction fuel as [|fuel IH]; intros [] x r0; [done|].
  rewrite !next_unfold. simpl.
  assert (Hdec : bool_decide (S (length allMiddlewares) ≤ S (index x)) =
                 bool_decide (length allMiddlewares ≤ index x)).
  { apply bool_decide_ext. lia. }
  rewrite Hdec. clear Hdec.
  destruct (bool_decide (length allMiddlewares ≤ index x)).
  - apply (log_exec_shift InvokeHandler (handler r request) no_next no_next x r0).
    intros [].
  - destruct (allMiddlewares !! index x) as [m|]; [|done].
    apply (try_catch_map_env shift_env _ _ _ _
             {| index := S (index x); trace := trace x |} r0).
    + destruct (before m) as [hook|]; [|apply IH].
      apply (log_exec_shift (InvokeBefore (index x)) (hook request)
               (next allMiddlewares r request fuel)
               (next (m0 :: allMiddlewares) r request fuel)
               {| index := S (index x); trace := trace x |} r0).
      intros []. apply IH.
    + intros e x' r'. destruct (onError m) as [hook|]; [|done].
      apply (log_exec_shift (InvokeOnError (index x)) (hook e request)
               (next allMiddlewares r request fuel)
               (next (m0 :: allMiddlewares) r request fuel) x' r').
      intros []. apply IH.
Qed.

Lemma executeMiddlewareChain_shift (s : Server) (r : IRoute) (request : IRequest) :
  executeMiddlewareChain (set_globalMiddlewares (m0 :: _globalMiddlewares s) s)
      r request [] =
    ((executeMiddlewareChain s r request []).1,
     shift_event <$> (executeMiddlewareChain s r request []).2).
Proof.
  unfold executeMiddlewareChain. simpl.
  set (allMiddlewares := _globalMiddlewares s ++ default [] (middlewares r)).
  rewrite (next_unfold (m0 :: allMiddlewares)). simpl.
  rewrite no_before, no_onError, try_catch_rethrow.
  pose proof (next_shift allMiddlewares r request (S (length allMiddlewares)) tt
                {| index := 0; trace := [] |} createResponse) as Hs.
  unfold shift_env in Hs at 1. simpl in Hs. rewrite Hs.
  by destruct (next allMiddlewares _ _ _ _ _) as [[[]|e|] [x r']].
Qed.

Lemma handleError_from_shift (error : jsval) (request : IRequest) ms :
  ∀ i tr,
    handleError_from (S i) ms error request (shift_event <$> tr) =
      ((handleError_from i ms error request tr).1,
       shift_event <$> (handleError_from i ms error request tr).2).
Proof.
  induction ms as [|m ms IH]; intros i tr; simpl; [done|].
  destruct (onError m) as [hook|]; [|apply IH].
  rewrite !exec_noop_sweep_attempt.
  destruct (sweep_attempt hook error request) as [[[]|e|] r']; simpl.
  - by rewrite fmap_app.
  - rewrite <- IH. by rewrite fmap_app.
  - by rewrite fmap_app.
Qed.

Lemma processRequest_shift (s : Server) (request : IRequest) :
  processRequest (set_globalMiddlewares (m0 :: _globalMiddlewares s) s) request [] =
    ((processRequest s request []).1,
     shift_event <$> (processRequest s request []).2).
Proof.
  unfold processRequest, try_catch.
  change (findRoute (set_globalMiddlewares (m0 :: _globalMiddlewares s) s))
    with (findRoute s).
  destruct (findRoute s (req_method request) (req_path request)) as [r|]; [|done].
  rewrite executeMiddlewareChain_shift.
  destruct (executeMiddlewareChain s r request []) as [[response|e|] tr]; simpl;
    [done| |done].
  unfold handleError. simpl. rewrite no_onError. apply handleError_from_shift.
Qed.
End Transparent.

(** A global middleware that has neither a [before] nor an [onError] hook
    (one that only defines [after], for instance), placed first, changes no
    dispatch: the outcome and the response are the same, and so are the
    invocations, every other middleware being one position further. *)
Theorem hookless_first_middleware_is_transparent
    (s : Server) (m0 : IMiddleware) (request : IRequest) :
  before m0 = None → onError m0 = None →
  dispatch (set_globalMiddlewares (m0 :: _globalMiddlewares s) s) request =
    ((dispatch s request).1, shift_event <$> (dispatch s request).2).
Proof. intros Hb He. unfold dispatch. by apply processRequest_shift. Qed.

Lemma hookless_first_middleware_is_transparent_witness :
  dispatch (server_with [root_route] [after_only; resuming; failing])
      (sample_request GET "/") =
    (Ok {| r_status := Some 200; r_headers := ∅; r_body := VStr "Root";
           r_sent := true; r_finished := true |},
     [InvokeBefore 1; InvokeBefore 2; InvokeOnError 1; InvokeBefore 3;
      InvokeHandler]%nat).
Proof.
  apply (hookless_first_middleware_is_transparent
           (server_with [root_route] [resuming; failing]) after_only
           (sample_request GET "/")); reflexivity.
Defined.

(** ** Further instances on the sample servers *)

(** A group built by the constructor finds each of its routes by the
    route's own method and (unprefixed) path: no route of the group hides
    another. *)
Theorem group_findRoute_finds_each_route (g : RouteGroup) (r : IRoute) :
  constructed g →
  r ∈ rg_routes g →
  RouteGroup_findRoute g (method r) (path r) = Some r.
Proof.
  intros Hg Hin. apply constructed_inv in Hg as [Hnd _].
  apply list_elem_of_split in Hin as (l1 & l2 & Hsplit).
  unfold RouteGroup_findRoute. apply find_first_match.
  exists l1, l2. split; [done|]. split; [by rewrite !bool_decide_eq_true_2|].
  apply Forall_forall. intros r0 Hin0. apply andb_false_iff.
  destruct (decide (method r0 = method r)) as [Hm|Hm];
    [right|left; by apply bool_decide_eq_false].
  apply bool_decide_eq_false. intros Hp.
  rewrite Hsplit, fmap_app in Hnd. apply NoDup_app in Hnd as (_ & Hdis & _).
  apply (Hdis (method_and_path r0)).
  - by apply list_elem_of_fmap_2.
  - simpl. apply elem_of_cons. left. unfold method_and_path. by rewrite Hm, Hp.
Qed.

Lemma group_findRoute_finds_each_route_witness :
  RouteGroup_findRoute
    {| rg_prefix := "/api"; rg_routes := [root_route; set_path "/x" root_route];
       rg_middlewares := []; rg_description := None; rg_tags := None |}
    GET "/x" = Some (set_path "/x" root_route).
Proof.
  apply (group_findRoute_finds_each_route
           {| rg_prefix := "/api"; rg_routes := [root_route; set_path "/x" root_route];
              rg_middlewares := []; rg_description := None; rg_tags := None |}
           (set_path "/x" root_route)).
  - exists "api/", [root_route; set_path "/x" root_route], None, None, None. reflexivity.
  - apply elem_of_cons. right. apply elem_of_cons. by left.
Defined.

Lemma normalizePrefix_strips_one_slash_witness :
  (RouteGroup_normalizePrefix "api/" = "/" ∨
   endsWith_slash (RouteGroup_normalizePrefix "api/") = false) ∧
  RouteGroup_normalizePrefix (RouteGroup_normalizePrefix "api/") =
    RouteGroup_normalizePrefix "api/".
Proof.
  apply (proj1 (normalizePrefix_strips_one_slash "api/")).
  intros q Hq.
  destruct q as [|c1 [|c2 [|c3 [|c4 q]]]]; try discriminate Hq.
  rewrite !append_cons in Hq. injection Hq as _ _ _ Hq. by destruct q.
Defined.

Lemma RouteGroup_addRoute_outcome_witness :
  let g := {| rg_prefix := "/api"; rg_routes := [root_route];
              rg_middlewares := []; rg_description := None; rg_tags := None |} in
  RouteGroup_addRoute root_route g =
    Throw (Error "Route already exists: GET:/api/") ∧
  RouteGroup_addRoute (set_path "/x" root_route) g =
    Ok {| rg_prefix := "/api"; rg_routes := [root_route; set_path "/x" root_route];
          rg_middlewares := []; rg_description := None; rg_tags := None |}.
Proof.
  intros g.
  assert (Hg : constructed g).
  { exists "api/", [root_route], None, None, None. reflexivity. }
  destruct (RouteGroup_addRoute_outcome g root_route Hg) as [Hdup _].
  destruct (RouteGroup_addRoute_outcome g (set_path "/x" root_route) Hg) as [_ Hnew].
  split.
  - apply Hdup. apply elem_of_cons. by left.
  - apply Hnew. intros Hin. apply list_elem_of_singleton in Hin. discriminate Hin.
Defined.

Lemma failed_start_leaves_server_stopped_witness :
  start 3000 (newServer refusing_engine) =
    (Throw (Error "EADDRINUSE"), newServer refusing_engine).
Proof.
  apply (failed_start_leaves_server_stopped (newServer refusing_engine) 3000);
    reflexivity.
Defined.

Lemma start_then_stop_restores_witness :
  (start 3000;; stop) (newServer sample_engine) = (Ok tt, newServer sample_engine).
Proof.
  apply (start_then_stop_restores (newServer sample_engine) 3000); reflexivity.
Defined.

Lemma stop_edge_cases_witness :
  stop (newServer refusing_engine) = (Ok tt, newServer refusing_engine) ∧
  stop (set_isRunning true (newServer refusing_engine)) =
    (Throw (Error "ERR_SERVER_NOT_RUNNING"), set_isRunning true (newServer refusing_engine)).
Proof.
  split.
  - apply (proj1 (stop_edge_cases (newServer refusing_engine))). reflexivity.
  - apply (proj2 (stop_edge_cases (set_isRunning true (newServer refusing_engine))));
      reflexivity.
Defined.

(** ** A handler that throws, behind middleware without [onError] *)

Section HandlerThrows.
Local Open Scope nat_scope.
Variable allMiddlewares : list IMiddleware.
Variable the_route : IRoute.
Variable request : IRequest.
Variable e : jsval.
Hypothesis hooks :
  ∀ m, m ∈ allMiddlewares → before_passes_on m request e ∧ onError m = None.
Hypothesis handler_throws :
  ∀ r0, r_sent r0 = false →
        ∃ r', run_handler (handler the_route request) r0 = (Throw e, r').

Lemma next_handler_throws k :
  ∀ fuel x r,
    index x + k = length allMiddlewares →
    length allMiddlewares < fuel + index x →
    r_sent r = false →
    ∃ x' r',
      next allMiddlewares the_route request fuel tt (x, r) = (Throw e, (x', r')) ∧
      trace x' = trace x ++ (InvokeBefore <$> seq (index x) k) ++ [InvokeHandler].
Proof.
  induction k as [|k IH]; intros fuel x r Hk Hfuel Hr.
  - destruct fuel as [|fuel]; [lia|]. rewrite next_unfold.
    rewrite bool_decide_eq_true_2 by lia.
    rewrite try_catch_log_bind, exec_handler_env.
    destruct (handler_throws r Hr) as [r' ->]. simpl. by eexists _, _.
  - destruct fuel as [|fuel]; [lia|].
    destruct (allMiddlewares !! index x) as [m|] eqn:Hm.
    2: { apply lookup_ge_None in Hm. lia. }
    destruct (hooks m) as [(b & Hb & Hcalls) HnoE].
    { apply list_elem_of_lookup. eauto. }
    destruct (Hcalls r Hr) as (r1 & post & h & Hat & Hr1 & Hh).
    rewrite (next_calls_next_at allMiddlewares the_route request fuel x r m b
               r1 post h Hm Hb Hat).
    destruct (IH fuel {| index := S (index x);
                         trace := trace x ++ [InvokeBefore (index x)] |} r1)
      as (x' & r' & E & Htrace); [simpl; lia..|done|].
    unfold try_catch, settle. rewrite E, Hh. simpl.
    unfold catch_clause. rewrite HnoE. simpl.
    exists x', r'. split; [done|]. rewrite Htrace. simpl.
    by rewrite <- app_assoc.
Qed.
End HandlerThrows.

Lemma onError_positions_none (i : nat) (ms : list IMiddleware) :
  Forall (λ m, onError m = None) ms → onError_positions i ms = [].
Proof.
  intros H. revert i. induction H as [|m ms Hm _ IH]; intros i; [done|].
  simpl. rewrite Hm. apply IH.
Qed.

(** When every middleware of the chain has a [before] hook that awaits
    every call it makes of [next] and that, on a response not yet sent,
    calls [next] before sending anything and does not catch what the call
    throws, and none has [onError], and the handler throws (on any response
    not yet sent), the dispatch invokes the [before] hooks in order, then
    the handler, and answers with the 500 fallback: nothing the hooks or
    the handler wrote reaches the response. *)
Theorem uncaught_handler_error_gives_500
    (s : Server) (r : IRoute) (request : IRequest) (e : jsval) :
  let allMiddlewares := _globalMiddlewares s ++ default [] (middlewares r) in
  findRoute s (req_method request) (req_path request) = Some r →
  (∀ m, m ∈ allMiddlewares → before_passes_on m request e ∧ onError m = None) →
  (∀ r0, sent r0 = false →
         ∃ r', run_handler (handler r request) r0 = (Throw e, r')) →
  dispatch s request =
    (Ok internal_server_error,
     (InvokeBefore <$> seq 0 (length allMiddlewares)) ++ [InvokeHandler]).
Proof.
  intros allMiddlewares Hfind Hhooks Hthrows. unfold dispatch.
  rewrite (processRequest_found s request [] r Hfind). unfold try_catch.
  destruct (next_handler_throws allMiddlewares r request e Hhooks Hthrows
              (length allMiddlewares) (S (length allMiddlewares))
              {| index := 0; trace := [] |} createResponse)
    as (x' & r' & Hnext & Htrace); [done|simpl; lia|done|].
  rewrite (executeMiddlewareChain_throws s r request [] e x' r' Hnext).
  assert (Hdecl : Forall (λ m, onError m = None) (_globalMiddlewares s)).
  { apply Forall_forall. intros m Hm. apply Hhooks. apply elem_of_app. by left. }
  unfold handleError. rewrite handleError_from_all_declined.
  - rewrite onError_positions_none by done. rewrite Htrace. simpl.
    by rewrite app_nil_r.
  - eapply Forall_impl; [exact Hdecl|]. intros m Hm. unfold declines. by rewrite Hm.
Qed.

Lemma uncaught_handler_error_gives_500_witness :
  dispatch (server_with [guarded_throwing_route] [pass_through; pass_through])
      (sample_request GET "/") =
    (Ok internal_server_error,
     [InvokeBefore 0; InvokeBefore 1; InvokeBefore 2; InvokeHandler]%nat).
Proof.
  apply (uncaught_handler_error_gives_500
           (server_with [guarded_throwing_route] [pass_through; pass_through])
           guarded_throwing_route (sample_request GET "/") (Error "boom")).
  - reflexivity.
  - intros m Hm. simpl in Hm.
    repeat (apply elem_of_cons in Hm as [->|Hm];
            [split; [apply pass_through_passes_on|reflexivity]|]).
    by apply elem_of_nil in Hm.
  - intros r0 Hr0. unfold run_handler. simpl. unfold bind, on_response. simpl.
    rewrite setStatus_open by done. simpl. by eexists.
Defined.

Lemma registrations_only_append_witness :
  findRoute (do_server_calls
               [CallStop; CallRoute (OneRoute plain_route); CallUse after_only;
                CallStart 3000; CallSetEngine refusing_engine]
               (server_with [root_route] []))
    GET "/" = Some root_route.
Proof.
  apply (registrations_only_append
           [CallStop; CallRoute (OneRoute plain_route); CallUse after_only;
            CallStart 3000; CallSetEngine refusing_engine]
           (server_with [root_route] [])).
  - repeat constructor. done.
  - repeat constructor.
  - reflexivity.
Defined.

(** ** Hooks that await every call of [next], among those that need not *)

Section Awaiting.
Local Open Scope nat_scope.

Lemma exec_awaiting {X} (nxt : Detached.how → M (X * ResponseState) unit)
    (p : prog unit) :
  ∀ s, exec nxt (awaiting p) s = exec (λ _, nxt Detached.Awaited) p s.
Proof.
  induction p as [|e|k IH|code k IH|name value k IH|data k IH|data k IH
                 |c k IH|p IHp h IHh k IHk]; intros s; simpl; try done.
  - unfold bind. destruct (on_response _ s) as [[[]|?|] ?]; auto.
  - unfold bind. destruct (on_response _ s) as [[[]|?|] ?]; auto.
  - unfold bind. destruct (on_response _ s) as [[[]|?|] ?]; auto.
  - unfold bind. destruct (on_response _ s) as [[[]|?|] ?]; auto.
  - unfold bind. destruct (nxt Detached.Awaited s) as [[[]|?|] ?]; auto.
  - unfold bind, try_catch. rewrite IHp.
    destruct (exec _ p s) as [[[]|e|] s']; auto.
    rewrite IHh. destruct (exec _ (h e) s') as [[[]|?|] ?]; auto.
Qed.

Lemma next_awaiting allMiddlewares r request (fl : Detached.Floating) fuel :
  ∀ x r0,
    Detached.next (awaiting_middleware <$> allMiddlewares) (awaiting_route r) request
        fuel Detached.Awaited ((x, fl), r0) =
      map_env (λ x, (x, fl)) (next allMiddlewares r request fuel tt (x, r0)).
Proof.
  induction fuel as [|fuel IH]; intros x r0; [done|].
  rewrite next_unfold, detached_next_unfold. simpl.
  rewrite length_fmap, list_lookup_fmap.
  case_bool_decide.
  - apply (exec_map_env (λ x, (x, fl)) no_next no_next (handler r request)
             ltac:(intros [])).
  - destruct (allMiddlewares !! index x) as [m|]; [|done]. simpl.
    apply (try_catch_map_env (λ x, (x, fl))).
    + destruct (before m) as [hook|]; simpl; [|apply IH].
      unfold bind at 1. simpl. rewrite exec_awaiting.
      apply (exec_map_env (λ x, (x, fl))). intros [] x' r'. apply IH.
    + intros e x' r'. destruct (onError m) as [hook|]; simpl; [|done].
      unfold bind at 1. simpl. rewrite exec_awaiting.
      apply (exec_map_env (λ x, (x, fl))). intros [] x'' r''. apply IH.
Qed.

Lemma executeMiddlewareChain_awaiting s r request tr (fl : Detached.Floating) :
  Detached.executeMiddlewareChain (awaiting_server s) (awaiting_route r) request (tr, fl) =
    ((executeMiddlewareChain s r request tr).1,
     ((executeMiddlewareChain s r request tr).2, fl)).
Proof.
  unfold Detached.executeMiddlewareChain, executeMiddlewareChain.
  cbn [Detached._globalMiddlewares Detached.middlewares awaiting_server
       awaiting_route fst snd].
  replace ((awaiting_middleware <$> _globalMiddlewares s) ++
           default [] (fmap (M := list) awaiting_middleware <$> middlewares r))
    with (awaiting_middleware <$> (_globalMiddlewares s ++ default [] (middlewares r))).
  2: { rewrite fmap_app. by destruct (middlewares r). }
  rewrite length_fmap, next_awaiting.
  by destruct (next _ _ _ _ _ _) as [[[]|e|] [x' r']].
Qed.

Lemma handleError_from_awaiting error request (fl : Detached.Floating) ms :
  ∀ i tr,
    Detached.handleError_from i (awaiting_middleware <$> ms) error request (tr, fl) =
      ((handleError_from i ms error request tr).1,
       ((handleError_from i ms error request tr).2, fl)).
Proof.
  induction ms as [|m ms IH]; intros i tr; simpl.
  - by rewrite createErrorResponse_eq.
  - destruct (onError m) as [hook|]; simpl; [|apply IH].
    rewrite exec_awaiting.
    rewrite (exec_map_env (λ tr, (tr, fl)) noop (λ _, Detached.noop Detached.Awaited)
               (hook error request) ltac:(done) (tr ++ [InvokeOnError i]) createResponse).
    destruct (exec noop (hook error request) _) as [[[]|e|] [tr' r']]; simpl;
      [done|apply IH|done].
Qed.

Lemma findRoute_awaiting s m p :
  Detached.findRoute (awaiting_server s) m p = awaiting_route <$> findRoute s m p.
Proof.
  unfold Detached.findRoute, findRoute. simpl.
  induction (_routes s) as [|r rs IH]; [done|].
  simpl. by destruct (bool_decide (method r = m) && pathMatches (path r) p).
Qed.

(** A server whose hooks await every call of [next] dispatches the same
    way among the servers whose hooks need not: same outcome, same
    response, same record of invocations, and nothing left behind. *)
Lemma processRequest_awaiting s request tr (fl : Detached.Floating) :
  Detached.processRequest (awaiting_server s) request (tr, fl) =
    ((processRequest s request tr).1, ((processRequest s request tr).2, fl)).
Proof.
  unfold Detached.processRequest, processRequest, try_catch.
  rewrite findRoute_awaiting.
  destruct (findRoute s (req_method request) (req_path request)) as [r|]; simpl.
  - rewrite executeMiddlewareChain_awaiting.
    destruct (executeMiddlewareChain s r request tr) as [[?|e|] tr1]; simpl;
      [done| |done].
    apply handleError_from_awaiting.
  - done.
Qed.
End Awaiting.

(** ** A header named [__proto__] *)

(** [setHeader] with the name [__proto__] on a response not yet sent
    returns normally and stores nothing: the response is as it was.  With
    any other name the header is stored under that name. *)
Theorem proto_header_is_dropped (r : ResponseState) (name value : string) :
  sent r = false →
  setHeader "__proto__" value r = (Ok tt, r) ∧
  (name ≠ "__proto__" →
   ∃ r', setHeader name value r = (Ok tt, r') ∧
         headers r' !! name = Some value ∧
         ∀ other, other ≠ name → headers r' !! other = headers r !! other).
Proof.
  intros Hs. rewrite !setHeader_open by done. split; [done|].
  intros Hname. rewrite bool_decide_eq_false_2 by done.
  eexists. split; [done|]. unfold headers. simpl.
  split; [by rewrite lookup_insert_eq|].
  intros other Hother. by rewrite lookup_insert_ne.
Qed.

Lemma proto_header_is_dropped_witness :
  setHeader "__proto__" "x" createResponse = (Ok tt, createResponse) ∧
  ∃ r', setHeader "x-request-id" "42" createResponse = (Ok tt, r') ∧
        headers r' !! "x-request-id" = Some "42".
Proof.
  destruct (proto_header_is_dropped createResponse "x-request-id" "x" eq_refl)
    as [Hproto _].
  destruct (proto_header_is_dropped createResponse "x-request-id" "42" eq_refl)
    as [_ Hother].
  split; [exact Hproto|].
  destruct (Hother ltac:(done)) as (r' & Hset & Hget & _).
  exists r'. by split.
Defined.

(** ** A first hook that does not await [next] *)

(** When the [before] hook of the first global middleware is
    [(req, res, next) => { next(); }], the chain returns normally whatever
    the other middleware and the handler do: an error they throw rejects a
    promise nobody holds, so it reaches neither an [onError] hook of that
    first middleware nor the error path of [processRequest], and the
    response is the one the chain worked on, never the 500 fallback of the
    error path. *)
Theorem unawaited_first_hook_hides_errors
    (s : Detached.Server) (r : Detached.IRoute) (request : IRequest)
    (m : Detached.IMiddleware) (rest : list Detached.IMiddleware)
    (hook : IRequest → prog Detached.how) (g : list event * Detached.Floating) :
  Detached._globalMiddlewares s = m :: rest →
  Detached.before m = Some hook →
  hook request = Await Detached.Dropped Return →
  Detached.findRoute s (req_method request) (req_path request) = Some r →
  ∃ response g',
    Detached.executeMiddlewareChain s r request g = (Ok response, g') ∧
    Detached.processRequest s request g = (Ok response, g').
Proof.
  intros Hglobals Hbefore Hhook Hfind.
  assert (Hchain : ∃ response g',
            Detached.executeMiddlewareChain s r request g = (Ok response, g')).
  { unfold Detached.executeMiddlewareChain. rewrite Hglobals.
    rewrite detached_next_unfold. simpl. rewrite Hbefore, Hhook.
    unfold try_catch, bind at 1. simpl. unfold bind.
    destruct (detached_next_dropped
                (m :: rest ++ default [] (Detached.middlewares r)) r request
                (length (rest ++ default [] (Detached.middlewares r)))
                (({| index := 1; trace := g.1 ++ [InvokeBefore 0] |}, g.2),
                 createResponse)) as [[x' r'] ->].
    simpl. by eexists _, _. }
  destruct Hchain as (response & g' & Hchain).
  exists response, g'. split; [done|].
  unfold Detached.processRequest, try_catch. by rewrite Hfind, Hchain.
Qed.

Lemma unawaited_first_hook_hides_errors_witness :
  ∃ response g',
    Detached.executeMiddlewareChain
        {| Detached._globalMiddlewares := [dropping; awaiting_middleware failing_recovering];
           Detached._routes := [awaiting_route throwing_route] |}
        (awaiting_route throwing_route) (sample_request GET "/") ([], Detached.settled) =
      (Ok response, g') ∧
    Detached.processRequest
        {| Detached._globalMiddlewares := [dropping; awaiting_middleware failing_recovering];
           Detached._routes := [awaiting_route throwing_route] |}
        (sample_request GET "/") ([], Detached.settled) =
      (Ok response, g').
Proof.
  apply (unawaited_first_hook_hides_errors
           {| Detached._globalMiddlewares :=
                [dropping; awaiting_middleware failing_recovering];
              Detached._routes := [awaiting_route throwing_route] |}
           (awaiting_route throwing_route) (sample_request GET "/")
           dropping [awaiting_middleware failing_recovering]
           (λ _, Await Detached.Dropped Return) ([], Detached.settled));
    reflexivity.
Defined.
